(** * openxc-python: the byte-stream data source

    A shallow embedding of [openxc/sources/base.py]:
    [BytestreamDataSource._parse_message] (frame extraction and payload
    decoding) and [BytestreamDataSource.run] (the ingestion loop with its
    two counters and the consumer callback).

    Python [bytes] are lists of [Byte.byte]; Python integers are [Z];
    the dictionary handed to the callback is a [gmap string pyvalue];
    exceptions are an explicit [pyresult] type; the effects of [run]
    (counter updates, callback invocations) are a state record plus a
    trace of events. *)

From Stdlib Require Import ZArith List Lia Bool String Ascii HexadecimalString.
From Stdlib Require Import HexadecimalPos HexadecimalZ HexadecimalFacts.
From Stdlib Require Import Strings.Byte.
From stdpp Require Import base option list gmap strings.

Local Open Scope Z_scope.

(** ** Python values used by the source *)

Abbreviation bytes := (list byte).

(** The exceptions that can leave [_parse_message]: [IndexError] from
    indexing past the end of a [bytes] object, and protobuf's
    [DecodeError] raised by the varint reader. *)
Inductive exn : Type :=
  | IndexError
  | DecodeError.

Inductive pyresult (A : Type) : Type :=
  | Return (a : A)
  | Raise (e : exn).
Arguments Return {A} a.
Arguments Raise {A} e.

(** Sequencing: an exception raised by the first computation propagates. *)
#[global] Instance result_bind : MBind pyresult := fun A B k r =>
  match r with
  | Return a => k a
  | Raise e => Raise e
  end.

#[global] Instance result_ret : MRet pyresult := fun A a => Return a.

Definition len (b : bytes) : Z := Z.of_nat (length b).

(** The integer a byte stands for, [0 <= byte_val x < 256]. *)
Definition byte_val (x : byte) : Z := Z.of_N (Byte.to_N x).

(** [b[i]] on a [bytes] object, as an integer: a negative index counts
    from the end, anything out of range raises [IndexError]. *)
Definition index (b : bytes) (i : Z) : pyresult Z :=
  let j := if i <? 0 then i + len b else i in
  if j <? 0 then Raise IndexError
  else match b !! Z.to_nat j with
       | Some x => Return (byte_val x)
       | None => Raise IndexError
       end.

(** Slice bounds are clamped the way Python clamps them. *)
Definition clamp (b : bytes) (i : Z) : nat :=
  Z.to_nat (if i <? 0 then Z.max 0 (i + len b) else Z.min i (len b)).

(** [b[lo:hi]] *)
Definition slice (b : bytes) (lo hi : Z) : bytes :=
  take (clamp b hi - clamp b lo)%nat (drop (clamp b lo) b).

(** [b[lo:]] *)
Definition slice_from (b : bytes) (lo : Z) : bytes :=
  drop (clamp b lo) b.

(** [b.find(b"\0")]: index of the first zero byte, or [-1]. *)
Fixpoint find_from (b : bytes) (i : Z) : Z :=
  match b with
  | [] => -1
  | x :: b' => if Byte.eqb x x00 then i else find_from b' (i + 1)
  end.

Definition find_nul (b : bytes) : Z := find_from b 0.

(** ["0x%x" % n] *)
Definition format_hex (n : Z) : string :=
  ("0x" ++ NilZero.string_of_int (Z.to_hex_int n))%string.

(** ** The varint reader

    [google.protobuf.internal.decoder._DecodeVarint], the library function
    [_parse_message] calls to read the length prefix:
<<
    def DecodeVarint(buffer, pos):
      result = 0
      shift = 0
      while 1:
        b = buffer[pos]
        result |= ((b & 0x7f) << shift)
        pos += 1
        if not (b & 0x80):
          result &= mask
          return (result, pos)
        shift += 7
        if shift >= 64:
          raise _DecodeError('Too many bytes when decoding varint.')
>>
    with [mask = (1 << 64) - 1] (older releases read the byte as
    [ord(buffer[pos])], which is the same number).  The loop body runs at
    most ten times ([shift] reaches 70 after the tenth continuation byte),
    so ten units of fuel are enough; [DecodeVarint_loop_fuel] shows that
    the fuel branch is never the one that answers. *)

Definition mask : Z := Z.shiftl 1 64 - 1.

Fixpoint DecodeVarint_loop (fuel : nat) (buffer : bytes)
    (pos result shift : Z) : pyresult (Z * Z) :=
  match fuel with
  | O => Raise DecodeError
  | S fuel' =>
      b ← index buffer pos;
      let result := Z.lor result (Z.shiftl (Z.land b 127) shift) in
      let pos := pos + 1 in
      if Z.land b 128 =? 0 then Return (Z.land result mask, pos)
      else
        let shift := shift + 7 in
        if shift >=? 64 then Raise DecodeError
        else DecodeVarint_loop fuel' buffer pos result shift
  end.

Definition _DecodeVarint (buffer : bytes) (pos : Z) : pyresult (Z * Z) :=
  DecodeVarint_loop 10 buffer pos 0 0.

(** ** The decoded protobuf message

    The generated module [openxc_pb2] is not among the sources; the
    message types below have the fields that [_parse_message] reads.  An
    optional field is an [option] ([HasField] is [is_Some]).  The
    representation of a protobuf [double] is left abstract: the source
    only copies such values. *)

Section Source.

Variable double : Type.

(** Modelled from the spec: the tag of the two message variants of
    [openxc_pb2.VehicleMessage]; the source tests
    [message.type == message.RAW]. *)
Inductive MessageType : Type :=
  | RAW
  | TRANSLATED.

(** Modelled from the spec: [openxc_pb2.RawMessage], with an optional bus
    id, an optional numeric message id and an optional data payload. *)
Record RawMessage : Type := mkRawMessage {
  bus : option Z;
  message_id : option Z;
  data : option Z
}.

(** Modelled from the spec: [openxc_pb2.TranslatedMessage], with a name
    and numeric, boolean and string fields for the value and for the
    event annotation. *)
Record TranslatedMessage : Type := mkTranslatedMessage {
  name : string;
  numerical_value : option double;
  boolean_value : option bool;
  string_value : option string;
  numerical_event : option double;
  boolean_event : option bool;
  string_event : option string
}.

(** Modelled from the spec: [openxc_pb2.VehicleMessage], a tagged record
    that holds a raw or a translated message. *)
Record VehicleMessage : Type := mkVehicleMessage {
  type : MessageType;
  raw_message : RawMessage;
  translated_message : TranslatedMessage
}.

(** What [message.ParseFromString(message_data)] does: it fills the
    message, or raises one of the two exceptions the source catches. *)
Inductive parse_outcome : Type :=
  | Parsed (message : VehicleMessage)
  | RaisesDecodeError
  | RaisesUnicodeDecodeError.

(** The generated parser itself is a parameter of the development. *)
Variable ParseFromString : bytes -> parse_outcome.

(** Values stored in the dictionary handed to the callback. *)
Inductive pyvalue : Type :=
  | PyInt (n : Z)
  | PyFloat (d : double)
  | PyBool (b : bool)
  | PyStr (s : string).

Definition set_if {A : Type} (key : string) (f : A -> pyvalue)
    (field : option A) (d : gmap string pyvalue) : gmap string pyvalue :=
  match field with
  | Some v => <[key := f v]> d
  | None => d
  end.

(** The first field that is set among numerical, boolean, string
    (the [if]/[elif]/[elif] chains of the source). *)
Definition first_set (n : option double) (b : option bool)
    (s : option string) : option pyvalue :=
  match n, b, s with
  | Some v, _, _ => Some (PyFloat v)
  | None, Some v, _ => Some (PyBool v)
  | None, None, Some v => Some (PyStr v)
  | None, None, None => None
  end.

(** The [else] branch of the [try]: build [parsed_message] from the
    decoded protobuf message. *)
Definition build_parsed_message (message : VehicleMessage)
    : gmap string pyvalue :=
  match type message with
  | RAW =>
      let raw := raw_message message in
      set_if "data" (fun v => PyStr (format_hex v)) (data raw)
        (set_if "id" PyInt (message_id raw)
          (set_if "bus" PyInt (bus raw) ∅))
  | _ =>
      let tr := translated_message message in
      set_if "event" id
        (first_set (numerical_event tr) (boolean_event tr) (string_event tr))
        (set_if "value" id
          (first_set (numerical_value tr) (boolean_value tr) (string_value tr))
          (<["name" := PyStr (name tr)]> ∅))
  end.

(** Lines 107-138: a payload of more than one byte is handed to the
    protobuf parser; a parser exception is logged and leaves
    [parsed_message] at [None]. *)
Definition decode_payload (message_data : bytes)
    : option (gmap string pyvalue) :=
  if len message_data >? 1 then
    match ParseFromString message_data with
    | Parsed message => Some (build_parsed_message message)
    | RaisesDecodeError => None
    | RaisesUnicodeDecodeError => None
    end
  else None.

(** [BytestreamDataSource._parse_message]; the result is the triple
    [(parsed_message, remainder, len(message_data))].  The buffer is
    always a [bytes] object when [run] calls it, so the [encode] branch
    is not taken. *)
Definition _parse_message (message_buffer : bytes)
    : pyresult (option (gmap string pyvalue) * bytes * Z) :=
  let footer_index := find_nul message_buffer in
  if (footer_index >? -1) && (footer_index + 1 <? len message_buffer) then
    '(message_length, message_start) ←
      _DecodeVarint message_buffer (footer_index + 1);
    let message_data :=
      slice message_buffer message_start (message_start + message_length) in
    let remainder :=
      slice_from message_buffer (message_start + message_length) in
    Return (decode_payload message_data, remainder, len message_data)
  else Return (None, message_buffer, 0).

(** ** The ingestion loop *)

(** The shape test of [run]: [parsed_message] is always a dictionary, so
    [hasattr(message, '__iter__')] holds and the test is on the keys. *)
Definition has_key (key : string) (message : gmap string pyvalue) : bool :=
  bool_decide (is_Some (message !! key)).

Definition recognised (message : gmap string pyvalue) : bool :=
  (has_key "name" message && has_key "value" message)
  || (has_key "id" message && has_key "data" message).

(** What [run] does that can be seen from outside, in program order:
    [Accepted n] is line 82 ([bytes_received += byte_count] with
    [byte_count = n]), [Call m r] is the callback invocation of line 84,
    [Corrupted m] is line 79 for a message that failed the shape test. *)
Inductive event : Type :=
  | Accepted (byte_count : Z)
  | Call (message : gmap string pyvalue) (data_remaining : bool)
  | Corrupted (message : gmap string pyvalue).

(** The local [message_buffer] of [run], the two counters of the source
    object, and the events so far. *)
Record state : Type := mkState {
  message_buffer : bytes;
  bytes_received : Z;
  corrupted_messages : Z;
  history : list event
}.

(** [BytestreamDataSource.__init__] followed by the first line of [run]. *)
Definition initial : state := mkState [] 0 0 [].

(** [self.callback is not None]; a callback that is set is assumed to
    return normally. *)
Variable callback_set : bool.

(** How the inner [while True] is left. [Unfinished] is the answer of the
    model when its fuel runs out; [drain_finishes] shows that it never is
    the answer of [drain]. *)
Inductive inner_end : Type :=
  | Break
  | Raised (e : exn)
  | Unfinished.

(** One pass of the inner [while True]; [continue] is what the next
    pass does.  When [_parse_message] raises, the tuple assignment does
    not happen and the exception leaves [run]. *)
Definition drain_body (continue : state -> state * inner_end)
    (st : state) : state * inner_end :=
  match _parse_message (message_buffer st) with
  | Raise e => (st, Raised e)
  | Return (message, remainder, byte_count) =>
      match message with
      | None =>
          (mkState remainder (bytes_received st) (corrupted_messages st)
             (history st), Break)
      | Some message =>
          if negb (recognised message) then
            (mkState remainder (bytes_received st)
               (corrupted_messages st + 1)
               (history st ++ [Corrupted message]), Break)
          else
            continue
              (mkState remainder (bytes_received st + byte_count)
                 (corrupted_messages st)
                 (history st ++ Accepted byte_count ::
                    (if callback_set
                     then [Call message (len remainder >? 0)] else [])))
      end
  end.

Fixpoint drain_loop (fuel : nat) (st : state) : state * inner_end :=
  match fuel with
  | O => (st, Unfinished)
  | S fuel' => drain_body (drain_loop fuel') st
  end.

(** The inner loop of [run]: every pass that goes on has removed at least
    two bytes from the buffer. *)
Definition drain (st : state) : state * inner_end :=
  drain_loop (S (length (message_buffer st))) st.

(** One call of [self._read()]: bytes, or [DataSourceError]. *)
Inductive read_result : Type :=
  | Data (chunk : bytes)
  | DataSourceError.

(** How [run] stands after a finite list of reads: it returned after a
    [DataSourceError] ([Stopped]), an exception left it ([Crashed]), or it
    is in [_read] waiting for the next chunk ([Reading]).
    [InnerUnfinished] passes on [Unfinished] of the inner loop;
    [run_loop_finishes] shows that it never is the answer. *)
Inductive run_end : Type :=
  | Stopped
  | Crashed (e : exn)
  | Reading
  | InnerUnfinished.

Definition append_chunk (st : state) (chunk : bytes) : state :=
  mkState (message_buffer st ++ chunk) (bytes_received st)
    (corrupted_messages st) (history st).

(** One pass of the outer loop with a successful read. *)
Definition read_cycle (st : state) (chunk : bytes) : state * inner_end :=
  drain (append_chunk st chunk).

Fixpoint run_loop (reads : list read_result) (st : state)
    : state * run_end :=
  match reads with
  | [] => (st, Reading)
  | DataSourceError :: _ => (st, Stopped)
  | Data chunk :: reads' =>
      match read_cycle st chunk with
      | (st', Break) => run_loop reads' st'
      | (st', Raised e) => (st', Crashed e)
      | (st', Unfinished) => (st', InnerUnfinished)
      end
  end.

(** [BytestreamDataSource.run] on the reads the source delivers. *)
Definition run (reads : list read_result) : state * run_end :=
  run_loop reads initial.

End Source.

Arguments mkTranslatedMessage {double}.
Arguments mkVehicleMessage {double}.
Arguments PyInt {double}.
Arguments PyFloat {double}.
Arguments PyBool {double}.
Arguments PyStr {double}.
Arguments Parsed {double}.
Arguments RaisesDecodeError {double}.
Arguments RaisesUnicodeDecodeError {double}.
Arguments type {double}.
Arguments raw_message {double}.
Arguments translated_message {double}.
Arguments name {double}.
Arguments numerical_value {double}.
Arguments boolean_value {double}.
Arguments string_value {double}.
Arguments numerical_event {double}.
Arguments boolean_event {double}.
Arguments string_event {double}.
Arguments set_if {double A}.
Arguments first_set {double}.
Arguments build_parsed_message {double}.
Arguments decode_payload {double}.
Arguments _parse_message {double}.
Arguments has_key {double}.
Arguments recognised {double}.
Arguments Accepted {double}.
Arguments Call {double}.
Arguments Corrupted {double}.
Arguments mkState {double}.
Arguments message_buffer {double}.
Arguments bytes_received {double}.
Arguments corrupted_messages {double}.
Arguments history {double}.
Arguments initial {double}.
Arguments drain_body {double}.
Arguments drain_loop {double}.
Arguments drain {double}.
Arguments append_chunk {double}.
Arguments read_cycle {double}.
Arguments run_loop {double}.
Arguments run {double}.

(** ** The wire format, as the protocol describes it

    A frame is the sentinel byte [0x00], a base-128 little-endian varint
    with continuation bits, and the payload.  These definitions say what
    the byte strings mean; they are compared with what the code does. *)

Definition continues (x : byte) : bool := negb (Z.land (byte_val x) 128 =? 0).

(** Every byte but the last has its continuation bit set. *)
Fixpoint varint_wf (vs : bytes) : bool :=
  match vs with
  | [] => false
  | [x] => negb (continues x)
  | x :: vs' => continues x && varint_wf vs'
  end.

Fixpoint varint_value (vs : bytes) : Z :=
  match vs with
  | [] => 0
  | x :: vs' => byte_val x mod 128 + 128 * varint_value vs'
  end.

(** [vs] is a complete varint of at most ten bytes that stands for [L]
    (as an unsigned 64-bit number). *)
Definition is_varint (vs : bytes) (L : Z) : Prop :=
  varint_wf vs = true /\ (length vs <= 10)%nat
  /\ varint_value vs mod 2 ^ 64 = L.

Definition byte_of_Z (n : Z) : byte := default x00 (Byte.of_N (Z.to_N n)).

(** The canonical encoding of [n]: seven bits at a time, least
    significant group first. *)
Fixpoint leb128 (fuel : nat) (n : Z) : bytes :=
  match fuel with
  | O => []
  | S fuel' =>
      if n <? 128 then [byte_of_Z n]
      else byte_of_Z (128 + n mod 128) :: leb128 fuel' (n / 128)
  end.

Definition encode_varint (n : Z) : bytes := leb128 10 n.

Definition no_nul (junk : bytes) : Prop := Forall (fun x => x <> x00) junk.

(** A frame on the wire. *)
Definition frame (vs payload : bytes) : bytes := x00 :: vs ++ payload.

(** [p] stands in [s] as the payload of a frame: right after a sentinel
    and a complete varint whose value is at least the length of [p] (it
    is more when the bytes ended before the declared length). *)
Definition framed_in (p s : bytes) : Prop :=
  exists (pre vs post : bytes) (L : Z),
    s = pre ++ x00 :: vs ++ p ++ post /\ is_varint vs L /\ len p <= L.

(** Frames one after the other, each given by its length prefix and its
    payload. *)
Fixpoint wire (frames : list (bytes * bytes)) : bytes :=
  match frames with
  | [] => []
  | (vs, payload) :: frames' => frame vs payload ++ wire frames'
  end.

(** A result of [_parse_message] that [run] hands to the callback. *)
Definition dispatchable {double : Type}
    (message : option (gmap string (pyvalue double))) : bool :=
  match message with
  | Some m => recognised m
  | None => false
  end.

(** The events of a history that are callback invocations, and the byte
    counts of the frames it accepted. *)
Definition calls {double : Type} (h : list (event double))
    : list (gmap string (pyvalue double) * bool) :=
  omap (fun ev => match ev with Call m r => Some (m, r) | _ => None end) h.

Definition accepted_lengths {double : Type} (h : list (event double))
    : list Z :=
  omap (fun ev => match ev with Accepted n => Some n | _ => None end) h.

Definition sum_Z (l : list Z) : Z := foldr Z.add 0 l.

(** Reading a number back from its hexadecimal digits, for comparison
    with what ["0x%x"] writes: only the digits [0-9a-f], at least one of
    them, and no leading zero except for the number 0 itself. *)
Definition hex_digit (c : ascii) : option Z :=
  (if c =? "0" then Some 0 else if c =? "1" then Some 1
   else if c =? "2" then Some 2 else if c =? "3" then Some 3
   else if c =? "4" then Some 4 else if c =? "5" then Some 5
   else if c =? "6" then Some 6 else if c =? "7" then Some 7
   else if c =? "8" then Some 8 else if c =? "9" then Some 9
   else if c =? "a" then Some 10 else if c =? "b" then Some 11
   else if c =? "c" then Some 12 else if c =? "d" then Some 13
   else if c =? "e" then Some 14 else if c =? "f" then Some 15
   else None)%char.

Fixpoint read_hex_acc (s : string) (acc : Z) : option Z :=
  match s with
  | EmptyString => Some acc
  | String c s' =>
      match hex_digit c with
      | Some d => read_hex_acc s' (16 * acc + d)
      | None => None
      end
  end.

Definition read_hex (s : string) : option Z :=
  match s with
  | EmptyString => None
  | String c s' =>
      if (c =? "0")%char && negb (s' =? "")%string then None
      else read_hex_acc s 0
  end.


(** The number of bytes that the successful reads of a list deliver, and
    the number of such reads. *)
Definition total_read (reads : list read_result) : Z :=
  sum_Z (omap (fun r => match r with
                        | Data chunk => Some (len chunk)
                        | DataSourceError => None
                        end) reads).


(** The bytes that the successful reads of a list deliver, in order. *)
Definition stream (reads : list read_result) : bytes :=
  concat (omap (fun r => match r with
                         | Data chunk => Some chunk
                         | DataSourceError => None
                         end) reads).

(** The callback invocations for a burst of messages dispatched in one
    read cycle: [data_remaining] is false on the last one only. *)
Fixpoint burst_calls {double : Type}
    (ms : list (gmap string (pyvalue double)))
    : list (gmap string (pyvalue double) * bool) :=
  match ms with
  | [] => []
  | [m] => [(m, false)]
  | m :: ms' => (m, true) :: burst_calls ms'
  end.

(** ** The dashboard: [openxc/tools/dashboard.py]

    [Dashboard.receive] is the callback that is told [data_remaining];
    [DataPoint] is the per-measurement record it keeps.  The measurement
    classes of [openxc.measurements] are not among the sources: what the
    dashboard asks of a measurement is an interface. *)

Class Measurements : Type := {
  (** instances of [Measurement] and what [measurement.__class__] gives *)
  measurement : Type;
  measurement_class : Type;
  (** the keys and values of [DataPoint.events] *)
  state_value : Type;
  state_value_eq :: EqDecision state_value;
  state_value_countable :: Countable state_value;
  event_value : Type;
  (** what [datetime.now()] returns *)
  datetime : Type;
  m_name : measurement -> string;
  m_class : measurement -> measurement_class;
  (** [isinstance(measurement, EventedMeasurement)] *)
  is_evented : measurement -> bool;
  m_valid_state : measurement -> bool;
  m_value : measurement -> state_value;
  m_event : measurement -> event_value
}.

Section DashboardModel.

Context {M : Measurements}.

Record DataPoint : Type := mkDataPoint {
  dp_event : string;
  dp_current_data : option measurement;
  dp_events : gmap state_value event_value;
  dp_messages_received : Z;
  dp_measurement_type : measurement_class
}.

(** [DataPoint.__init__] *)
Definition DataPoint_init (measurement_type : measurement_class)
    : DataPoint :=
  mkDataPoint EmptyString None ∅ 0 measurement_type.

(** [DataPoint.update] *)
Definition DataPoint_update (self : DataPoint) (m : measurement)
    : DataPoint :=
  mkDataPoint (dp_event self) (Some m)
    (if is_evented m && m_valid_state m
     then <[m_value m := m_event m]> (dp_events self)
     else dp_events self)
    (dp_messages_received self + 1)
    (dp_measurement_type self).

(** The fields of a [Dashboard] that [receive] touches; [redraws] counts
    the calls of [_redraw], whose drawing is not modelled. *)
Record Dashboard : Type := mkDashboard {
  elements : gmap string DataPoint;
  started_time : datetime;
  messages_received : Z;
  redraws : nat
}.

(** [Dashboard.__init__], at time [now]. *)
Definition Dashboard_init (now : datetime) : Dashboard :=
  mkDashboard ∅ now 0 0.

(** [Dashboard.receive(measurement, data_remaining)], called at time
    [now]. *)
Definition receive (self : Dashboard)
    (call : measurement * bool * datetime) : Dashboard :=
  let '(m, data_remaining, now) := call in
  let started := if messages_received self =? 0
                 then now else started_time self in
  let elements1 :=
    match elements self !! m_name m with
    | None => <[m_name m := DataPoint_init (m_class m)]> (elements self)
    | Some _ => elements self
    end in
  let elements2 :=
    match elements1 !! m_name m with
    | Some dp => <[m_name m := DataPoint_update dp m]> elements1
    | None => elements1
    end in
  mkDashboard elements2 started (messages_received self + 1)
    (if data_remaining then redraws self else S (redraws self)).

(** A dashboard after a sequence of callback invocations. *)
Definition receive_all (self : Dashboard)
    (calls : list (measurement * bool * datetime)) : Dashboard :=
  foldl receive self calls.

(** The measurements of a sequence of invocations that carry a given
    name, in order. *)
Definition named (n : string)
    (calls : list (measurement * bool * datetime)) : list measurement :=
  filter (fun m => m_name m = n) (map (fun c => c.1.1) calls).

End DashboardModel.

(** ** A stand-in parser for concrete examples

    The generated [openxc_pb2] parser is a parameter of every theorem
    below; concrete runs need one instance.  This one reads a toy record:
    tag [0x01] is a raw message with an id and, when a third byte is
    there, data; tag [0x02] is a translated message named "speed" with one
    numerical value; anything else is a decode error.  Doubles are
    stood for by integers. *)
Module Sample.

Definition no_translated : TranslatedMessage Z :=
  mkTranslatedMessage EmptyString None None None None None None.

Definition ParseFromString (message_data : bytes) : parse_outcome Z :=
  match message_data with
  | [x01; i] =>
      Parsed (mkVehicleMessage RAW
                (mkRawMessage None (Some (byte_val i)) None) no_translated)
  | [x01; i; d] =>
      Parsed (mkVehicleMessage RAW
                (mkRawMessage None (Some (byte_val i)) (Some (byte_val d)))
                no_translated)
  | [x02; v] =>
      Parsed (mkVehicleMessage TRANSLATED (mkRawMessage None None None)
                (mkTranslatedMessage "speed"%string
                   (Some (byte_val v)) None None None None None))
  | _ => RaisesDecodeError
  end.

End Sample.

(** The buffer of [run] at a given content, counters at zero. *)
Definition holding (b : bytes) : state Z := mkState b 0 0 [].

(** A raw message with an id and no data: parsed, but not of a
    recognised shape. *)
Definition id_only : gmap string (pyvalue Z) :=
  build_parsed_message
    (mkVehicleMessage RAW (mkRawMessage None (Some 7) None)
       Sample.no_translated).

Definition speed_42 : gmap string (pyvalue Z) :=
  build_parsed_message
    (mkVehicleMessage TRANSLATED (mkRawMessage None None None)
       (mkTranslatedMessage "speed"%string (Some 42)
          None None None None None)).

Definition raw_16_255 : gmap string (pyvalue Z) :=
  build_parsed_message
    (mkVehicleMessage RAW (mkRawMessage None (Some 16) (Some 255))
       Sample.no_translated).

(** * Properties *)

(** ** Bytes, indexing and slices *)

Lemma byte_val_range (x : byte) : 0 <= byte_val x < 256.
Proof.
  unfold byte_val. pose proof (Byte.to_N_bounded x). lia.
Qed.

Lemma len_app (a b : bytes) : len (a ++ b) = len a + len b.
Proof. unfold len. rewrite length_app. lia. Qed.

Lemma len_cons (x : byte) (b : bytes) : len (x :: b) = 1 + len b.
Proof. unfold len. simpl length. lia. Qed.

Lemma len_nonneg (b : bytes) : 0 <= len b.
Proof. unfold len. lia. Qed.

Lemma index_middle (pre post : bytes) (x : byte) :
  index (pre ++ x :: post) (len pre) = Return (byte_val x).
Proof.
  unfold index. pose proof (len_nonneg pre) as Hp.
  destruct (Z.ltb_spec (len pre) 0) as [|_]; [lia|].
  destruct (Z.ltb_spec (len pre) 0) as [|_]; [lia|].
  unfold len. rewrite Nat2Z.id, list_lookup_middle by reflexivity.
  reflexivity.
Qed.

Lemma index_end (b : bytes) : index b (len b) = Raise IndexError.
Proof.
  unfold index. pose proof (len_nonneg b) as Hp.
  destruct (Z.ltb_spec (len b) 0) as [|_]; [lia|].
  destruct (Z.ltb_spec (len b) 0) as [|_]; [lia|].
  unfold len. rewrite Nat2Z.id, lookup_ge_None_2 by lia.
  reflexivity.
Qed.

Lemma clamp_inside (b : bytes) (n : nat) :
  (n <= length b)%nat -> clamp b (Z.of_nat n) = n.
Proof.
  intros Hn. unfold clamp, len.
  destruct (Z.ltb_spec (Z.of_nat n) 0); lia.
Qed.

Lemma clamp_le (b : bytes) (i : Z) : (clamp b i <= length b)%nat.
Proof.
  unfold clamp, len. destruct (Z.ltb_spec i 0); lia.
Qed.

Lemma clamp_beyond (b : bytes) (i : Z) :
  len b <= i -> clamp b i = length b.
Proof.
  intros Hi. unfold clamp. pose proof (len_nonneg b).
  destruct (Z.ltb_spec i 0); [lia|]. unfold len in *. lia.
Qed.

(** ** The sentinel search *)

Lemma find_from_skip (junk rest : bytes) (i : Z) :
  no_nul junk ->
  find_from (junk ++ x00 :: rest) i = i + len junk.
Proof.
  intros Hj. revert i. induction Hj as [|x junk Hx Hj IH]; intros i.
  - simpl. unfold len. simpl. lia.
  - simpl. destruct (Byte.eqb x x00) eqn:E.
    + apply Byte.byte_dec_bl in E. contradiction.
    + rewrite IH, len_cons. lia.
Qed.

Lemma find_nul_skip (junk rest : bytes) :
  no_nul junk -> find_nul (junk ++ x00 :: rest) = len junk.
Proof. intros Hj. unfold find_nul. rewrite find_from_skip by assumption. lia. Qed.

Lemma find_from_absent (b : bytes) (i : Z) :
  no_nul b -> find_from b i = -1.
Proof.
  intros Hb. revert i. induction Hb as [|x b Hx Hb IH]; intros i; simpl.
  - reflexivity.
  - destruct (Byte.eqb x x00) eqn:E; [|apply IH].
    apply Byte.byte_dec_bl in E. contradiction.
Qed.

(** ** The varint reader *)

(** Ten units of fuel are as good as any larger amount: the tenth pass
    either returns or raises on [shift >= 64]. *)
Lemma DecodeVarint_loop_fuel (n fuel : nat) (buffer : bytes)
    (pos result shift : Z) :
  (1 <= n <= fuel)%nat -> 64 <= shift + 7 * Z.of_nat n ->
  DecodeVarint_loop fuel buffer pos result shift
  = DecodeVarint_loop n buffer pos result shift.
Proof.
  revert fuel pos result shift.
  induction n as [|n IH]; intros fuel pos result shift Hn Hs; [lia|].
  destruct fuel as [|fuel]; [lia|]. simpl.
  destruct (index buffer pos) as [b|e]; simpl; [|reflexivity].
  destruct (Z.land b 128 =? 0); [reflexivity|].
  destruct (Z.geb_spec (shift + 7) 64) as [|Hlt]; [reflexivity|].
  apply IH; lia.
Qed.

Lemma DecodeVarint_fuel (fuel : nat) (buffer : bytes) (pos : Z) :
  (10 <= fuel)%nat ->
  DecodeVarint_loop fuel buffer pos 0 0 = _DecodeVarint buffer pos.
Proof.
  intros Hf. unfold _DecodeVarint. apply DecodeVarint_loop_fuel; lia.
Qed.

Lemma continues_spec (x : byte) : continues x = (128 <=? byte_val x).
Proof. destruct x; reflexivity. Qed.

Lemma land_disjoint (r c s : Z) :
  0 <= s -> 0 <= r < 2 ^ s -> Z.land r (Z.shiftl c s) = 0.
Proof.
  intros Hs Hr. apply Z.bits_inj'. intros n Hn.
  rewrite Z.land_spec, Z.bits_0.
  destruct (Z.lt_ge_cases n s) as [Hlt|Hge].
  - rewrite Z.shiftl_spec_low by assumption. apply andb_false_r.
  - rewrite <- (Z.mod_small r (2 ^ s)) by assumption.
    rewrite Z.mod_pow2_bits_high by lia. reflexivity.
Qed.

(** [result |= (b & 0x7f) << shift] adds the seven payload bits when
    [result] fits below [shift]. *)
Lemma lor_group (r b s : Z) :
  0 <= s -> 0 <= r < 2 ^ s ->
  Z.lor r (Z.shiftl (Z.land b 127) s) = r + 2 ^ s * (b mod 128).
Proof.
  intros Hs Hr. rewrite <- Z.add_nocarry_lor by (apply land_disjoint; assumption).
  change 127 with (Z.ones 7). rewrite Z.land_ones by lia.
  rewrite Z.shiftl_mul_pow2 by assumption.
  change (2 ^ 7) with 128. lia.
Qed.

Lemma land_mask (x : Z) : Z.land x mask = x mod 2 ^ 64.
Proof. change mask with (Z.ones 64). apply Z.land_ones. lia. Qed.

(** The reader on a well-formed varint in the middle of a buffer: it
    returns the value the bytes stand for and the position after them. *)
Lemma DecodeVarint_loop_wf (vs : bytes) :
  forall (fuel : nat) (pre post : bytes) (r shift : Z),
    varint_wf vs = true ->
    (length vs <= fuel)%nat ->
    0 <= shift -> shift + 7 * len vs < 71 ->
    0 <= r < 2 ^ shift ->
    DecodeVarint_loop fuel (pre ++ vs ++ post) (len pre) r shift
    = Return ((r + 2 ^ shift * varint_value vs) mod 2 ^ 64,
              len pre + len vs).
Proof.
  induction vs as [|x vs IH]; intros fuel pre post r shift Hwf Hf Hs Hb Hr;
    [discriminate|].
  destruct fuel as [|fuel]; [simpl in Hf; lia|].
  cbn [DecodeVarint_loop]. rewrite <- app_comm_cons, index_middle.
  cbn [mbind result_bind].
  rewrite lor_group by assumption.
  pose proof (byte_val_range x) as Hx.
  assert (Hm : 0 <= byte_val x mod 128 < 128) by (apply Z.mod_pos_bound; lia).
  destruct vs as [|y vs].
  - simpl in Hwf. unfold continues in Hwf.
    destruct (Z.land (byte_val x) 128 =? 0); [|discriminate].
    rewrite land_mask.
    replace (varint_value [x]) with (byte_val x mod 128) by (simpl; lia).
    reflexivity.
  - change (varint_wf (x :: y :: vs)) with (continues x && varint_wf (y :: vs))
      in Hwf.
    apply andb_true_iff in Hwf as [Hc Hwf]. unfold continues in Hc.
    destruct (Z.land (byte_val x) 128 =? 0); [discriminate|].
    rewrite !len_cons in Hb. pose proof (len_nonneg vs) as Hv.
    destruct (Z.geb_spec (shift + 7) 64) as [|_]; [lia|].
    replace (pre ++ x :: (y :: vs) ++ post)
      with ((pre ++ [x]) ++ (y :: vs) ++ post)
      by (rewrite <- app_assoc; reflexivity).
    replace (len pre + 1) with (len (pre ++ [x]))
      by (rewrite len_app; reflexivity).
    rewrite IH.
    + change (varint_value (x :: y :: vs))
        with (byte_val x mod 128 + 128 * varint_value (y :: vs)).
      rewrite len_app, !len_cons.
      rewrite Z.pow_add_r by lia. change (2 ^ 7) with 128.
      f_equal. f_equal; [f_equal; lia|]. change (len []) with 0. lia.
    + assumption.
    + simpl in Hf |- *. lia.
    + lia.
    + rewrite !len_cons. lia.
    + rewrite Z.pow_add_r by lia. change (2 ^ 7) with 128. nia.
Qed.

Lemma DecodeVarint_wf (pre vs post : bytes) (L : Z) :
  is_varint vs L ->
  _DecodeVarint (pre ++ vs ++ post) (len pre)
  = Return (L, len pre + len vs).
Proof.
  intros (Hwf & Hlen & HL). unfold _DecodeVarint.
  rewrite DecodeVarint_loop_wf; try assumption; try (unfold len; lia).
  rewrite Z.add_0_l, Z.pow_0_r, Z.mul_1_l, HL. reflexivity.
Qed.

(** A buffer that ends inside a varint: every byte from [pos] on has its
    continuation bit set. *)
Lemma DecodeVarint_loop_truncated (vs : bytes) :
  forall (fuel : nat) (pre : bytes) (r shift : Z),
    Forall (fun x => continues x = true) vs ->
    (length vs < fuel)%nat ->
    shift + 7 * len vs < 64 ->
    DecodeVarint_loop fuel (pre ++ vs) (len pre) r shift = Raise IndexError.
Proof.
  induction vs as [|x vs IH]; intros fuel pre r shift Hc Hf Hs;
    (destruct fuel as [|fuel]; [simpl in Hf; lia|]); cbn [DecodeVarint_loop].
  - rewrite app_nil_r, index_end. reflexivity.
  - rewrite index_middle. cbn [mbind result_bind].
    inversion Hc as [|? ? Hx Hc']; subst. unfold continues in Hx.
    destruct (Z.land (byte_val x) 128 =? 0); [discriminate|].
    rewrite len_cons in Hs. pose proof (len_nonneg vs).
    destruct (Z.geb_spec (shift + 7) 64) as [|_]; [lia|].
    replace (pre ++ x :: vs) with ((pre ++ [x]) ++ vs)
      by (rewrite <- app_assoc; reflexivity).
    replace (len pre + 1) with (len (pre ++ [x]))
      by (rewrite len_app; reflexivity).
    apply IH; [assumption|simpl in Hf; lia|lia].
Qed.

(** The canonical encoding is a varint in the sense above. *)
Lemma byte_val_of_Z (n : Z) : 0 <= n < 256 -> byte_val (byte_of_Z n) = n.
Proof.
  intros Hn. unfold byte_val, byte_of_Z.
  destruct (Byte.of_N (Z.to_N n)) as [b|] eqn:E.
  - apply Byte.to_of_N in E. simpl. lia.
  - apply Byte.of_N_None_iff in E. lia.
Qed.

Lemma varint_wf_cons (x y : byte) (vs : bytes) :
  varint_wf (x :: y :: vs) = continues x && varint_wf (y :: vs).
Proof. reflexivity. Qed.

Lemma leb128_spec (fuel : nat) :
  forall n : Z,
    0 <= n < 128 ^ Z.of_nat (S fuel) ->
    varint_wf (leb128 (S fuel) n) = true
    /\ (1 <= length (leb128 (S fuel) n) <= S fuel)%nat
    /\ varint_value (leb128 (S fuel) n) = n.
Proof.
  induction fuel as [|fuel IH]; intros n Hn.
  - change (128 ^ Z.of_nat 1) with 128 in Hn. cbn [leb128].
    destruct (Z.ltb_spec n 128) as [_|]; [|lia].
    cbn [varint_wf varint_value length].
    rewrite continues_spec, byte_val_of_Z by lia.
    destruct (Z.leb_spec 128 n); [lia|].
    rewrite Z.mod_small by lia. repeat split; lia.
  - remember (S fuel) as k eqn:Hk. cbn [leb128].
    destruct (Z.ltb_spec n 128) as [Hlt|Hge].
    + cbn [varint_wf varint_value length].
      rewrite continues_spec, byte_val_of_Z by lia.
      destruct (Z.leb_spec 128 n); [lia|].
      rewrite Z.mod_small by lia. repeat split; lia.
    + assert (Hq : 0 <= n / 128 < 128 ^ Z.of_nat k).
      { split; [apply Z.div_pos; lia|].
        apply Z.div_lt_upper_bound; [lia|].
        rewrite Nat2Z.inj_succ, Z.pow_succ_r in Hn by lia. lia. }
      subst k. destruct (IH _ Hq) as (Hwf & Hl & Hv).
      pose proof (Z.mod_pos_bound n 128 ltac:(lia)) as Hm.
      destruct (leb128 (S fuel) (n / 128)) as [|y vs] eqn:E;
        [simpl in Hl; lia|].
      rewrite varint_wf_cons, Hwf, continues_spec.
      cbn [varint_value length] in *.
      rewrite byte_val_of_Z by lia.
      destruct (Z.leb_spec 128 (128 + n mod 128)); [|lia].
      repeat split; try lia.
      rewrite Hv.
      replace ((128 + n mod 128) mod 128) with (n mod 128)
        by (rewrite <- (Z.mul_1_l 128) at 2;
            rewrite Z.add_comm, Z.mod_add, Z.mod_mod by lia; reflexivity).
      pose proof (Z.div_mod n 128 ltac:(lia)). lia.
Qed.

Lemma encode_varint_is_varint (n : Z) :
  0 <= n < 2 ^ 64 -> is_varint (encode_varint n) n.
Proof.
  intros Hn. unfold encode_varint.
  destruct (leb128_spec 9 n) as (Hwf & Hl & Hv).
  { change (128 ^ Z.of_nat 10) with (2 ^ 70).
    assert (2 ^ 64 < 2 ^ 70) by (apply Z.pow_lt_mono_r; lia). lia. }
  repeat split; [assumption|lia|].
  rewrite Hv. apply Z.mod_small. assumption.
Qed.

(** ** Frame extraction *)

Lemma slice_middle (a b c : bytes) :
  slice (a ++ b ++ c) (len a) (len a + len b) = b.
Proof.
  unfold slice, len. rewrite <- Nat2Z.inj_add, !clamp_inside
    by (rewrite !length_app; lia).
  rewrite drop_app_length.
  replace (length a + length b - length a)%nat with (length b) by lia.
  apply take_app_length.
Qed.

Lemma slice_from_middle (a b c : bytes) :
  slice_from (a ++ b ++ c) (len a + len b) = c.
Proof.
  unfold slice_from, len. rewrite <- Nat2Z.inj_add, clamp_inside
    by (rewrite !length_app; lia).
  rewrite app_assoc, <- length_app. apply drop_app_length.
Qed.

Lemma varint_wf_nonempty (vs : bytes) : varint_wf vs = true -> 0 < len vs.
Proof.
  destruct vs; [discriminate|]. intros _. rewrite len_cons.
  pose proof (len_nonneg vs). lia.
Qed.

Section Extraction.

Context {double : Type}.
Variable ParseFromString : bytes -> parse_outcome double.

(** A whole frame after sentinel-free bytes: the payload is cut out at
    its declared length and the buffer continues after it. *)
Lemma parse_frame (junk vs payload rest : bytes) (L : Z) :
  no_nul junk -> is_varint vs L -> len payload = L ->
  _parse_message ParseFromString (junk ++ x00 :: vs ++ payload ++ rest)
  = Return (decode_payload ParseFromString payload, rest, L).
Proof.
  intros Hj Hv HL. unfold _parse_message.
  rewrite find_nul_skip by assumption.
  pose proof (len_nonneg junk) as Hjn.
  pose proof (varint_wf_nonempty vs (proj1 Hv)) as Hvn.
  pose proof (len_nonneg payload). pose proof (len_nonneg rest).
  destruct (Z.gtb_spec (len junk) (-1)) as [_|]; [|lia].
  rewrite len_app, len_cons, !len_app.
  destruct (Z.ltb_spec (len junk + 1) (len junk + (1 + (len vs + (len payload + len rest)))))
    as [_|]; [|lia].
  cbn [andb].
  replace (junk ++ x00 :: vs ++ payload ++ rest)
    with ((junk ++ [x00]) ++ vs ++ payload ++ rest)
    by (rewrite <- app_assoc; reflexivity).
  replace (len junk + 1) with (len (junk ++ [x00]))
    by (rewrite len_app; reflexivity).
  rewrite (DecodeVarint_wf _ _ _ L Hv). cbn [mbind result_bind].
  replace ((junk ++ [x00]) ++ vs ++ payload ++ rest)
    with (((junk ++ [x00]) ++ vs) ++ payload ++ rest)
    by (rewrite <- !app_assoc; reflexivity).
  rewrite <- len_app, <- HL, slice_middle, slice_from_middle.
  reflexivity.
Qed.

(** X6. A payload framed with the canonical encoding of its length,
    after bytes that hold no sentinel: [_parse_message] decodes exactly
    that payload and returns what follows the frame. *)
Corollary parse_encoded_frame (junk payload rest : bytes) :
  no_nul junk -> len payload < 2 ^ 64 ->
  _parse_message ParseFromString
    (junk ++ x00 :: encode_varint (len payload) ++ payload ++ rest)
  = Return (decode_payload ParseFromString payload, rest, len payload).
Proof.
  intros Hj Hl. apply parse_frame; [assumption| |reflexivity].
  apply encode_varint_is_varint. pose proof (len_nonneg payload). lia.
Qed.

End Extraction.

(** ** The inner loop: termination and its loop equation *)

Section Loop.

Context {double : Type}.
Variable ParseFromString : bytes -> parse_outcome double.
Variable callback_set : bool.

Lemma length_slice_le (b : bytes) (lo hi : Z) :
  (length (slice b lo hi) <= clamp b hi)%nat.
Proof. unfold slice. rewrite length_take. lia. Qed.

Lemma decode_payload_Some (message_data : bytes)
    (m : gmap string (pyvalue double)) :
  decode_payload ParseFromString message_data = Some m ->
  1 < len message_data.
Proof.
  unfold decode_payload.
  destruct (Z.gtb_spec (len message_data) 1); [lia|discriminate].
Qed.

(** The reported byte count is a length. *)
Lemma parse_byte_count_nonneg (b rem : bytes)
    (m : option (gmap string (pyvalue double))) (n : Z) :
  _parse_message ParseFromString b = Return (m, rem, n) -> 0 <= n.
Proof.
  unfold _parse_message.
  destruct (_ && _).
  - destruct (_DecodeVarint _ _) as [[L start]|e]; cbn [mbind result_bind];
      [|discriminate].
    intros [= _ _ <-]. apply len_nonneg.
  - intros [= _ _ <-]. lia.
Qed.

(** A parsed message has taken at least two bytes off the buffer. *)
Lemma parse_shrinks (b rem : bytes) (m : gmap string (pyvalue double))
    (n : Z) :
  _parse_message ParseFromString b = Return (Some m, rem, n) ->
  (length rem + 2 <= length b)%nat.
Proof.
  unfold _parse_message.
  destruct (_ && _); [|discriminate].
  destruct (_DecodeVarint _ _) as [[L start]|e]; cbn [mbind result_bind];
    [|discriminate].
  intros [= Hd <- _]. apply decode_payload_Some in Hd.
  pose proof (length_slice_le b start (start + L)) as Hs.
  pose proof (clamp_le b (start + L)) as Hc.
  unfold slice_from. rewrite length_drop. unfold len in Hd. lia.
Qed.

Lemma drain_loop_S (fuel : nat) (st : state double) :
  drain_loop ParseFromString callback_set (S fuel) st
  = drain_body ParseFromString callback_set
      (drain_loop ParseFromString callback_set fuel) st.
Proof. reflexivity. Qed.

(** Fuel beyond the length of the buffer changes nothing. *)
Lemma drain_loop_fuel (fuel : nat) :
  forall (fuel' : nat) (st : state double),
    (length (message_buffer st) < fuel)%nat ->
    (length (message_buffer st) < fuel')%nat ->
    drain_loop ParseFromString callback_set fuel st
    = drain_loop ParseFromString callback_set fuel' st.
Proof.
  induction fuel as [|fuel IH]; intros fuel' st Hf Hf'; [lia|].
  destruct fuel' as [|fuel']; [lia|].
  rewrite !drain_loop_S. unfold drain_body.
  destruct (_parse_message _ _) as [[[m rem] n]|e] eqn:E; [|reflexivity].
  destruct m as [m|]; [|reflexivity].
  destruct (negb (recognised m)); [reflexivity|].
  apply parse_shrinks in E. apply IH; cbn [message_buffer]; lia.
Qed.

(** The loop equation of the inner [while True]. *)
Lemma drain_unfold (st : state double) :
  drain ParseFromString callback_set st
  = drain_body ParseFromString callback_set
      (drain ParseFromString callback_set) st.
Proof.
  unfold drain at 1. rewrite drain_loop_S. unfold drain_body.
  destruct (_parse_message _ _) as [[[m rem] n]|e] eqn:E; [|reflexivity].
  destruct m as [m|]; [|reflexivity].
  destruct (negb (recognised m)); [reflexivity|].
  apply parse_shrinks in E. unfold drain.
  apply drain_loop_fuel; cbn [message_buffer]; lia.
Qed.

(** The inner loop always ends: by [break] or by an exception. *)
Lemma drain_loop_finishes (fuel : nat) :
  forall st : state double,
    (length (message_buffer st) < fuel)%nat ->
    (drain_loop ParseFromString callback_set fuel st).2 <> Unfinished.
Proof.
  induction fuel as [|fuel IH]; intros st Hf; [lia|].
  rewrite drain_loop_S. unfold drain_body.
  destruct (_parse_message _ _) as [[[m rem] n]|e] eqn:E; [|discriminate].
  destruct m as [m|]; [|discriminate].
  destruct (negb (recognised m)); [discriminate|].
  apply parse_shrinks in E. apply IH. cbn [message_buffer]. lia.
Qed.

Lemma drain_finishes (st : state double) :
  (drain ParseFromString callback_set st).2 <> Unfinished.
Proof. apply drain_loop_finishes. lia. Qed.

Lemma run_loop_finishes (reads : list read_result) :
  forall st : state double,
    (run_loop ParseFromString callback_set reads st).2 <> InnerUnfinished.
Proof.
  induction reads as [|[chunk|] reads IH]; intros st; cbn [run_loop];
    try discriminate.
  unfold read_cycle.
  pose proof (drain_finishes (append_chunk st chunk)) as Hd.
  destruct (drain _ _ _) as [st' [| e |]]; cbn [snd] in *;
    [apply IH|discriminate|contradiction].
Qed.

End Loop.

(** ** Frame extraction: what [_parse_message] does with the buffer *)

Section Frames.

Context {double : Type}.
Variable ParseFromString : bytes -> parse_outcome double.

Lemma slice_short (a b : bytes) (L : Z) :
  len b <= L -> slice (a ++ b) (len a) (len a + L) = b.
Proof.
  intros HL. unfold slice.
  rewrite (clamp_beyond _ (len a + L)) by (rewrite len_app; lia).
  replace (clamp (a ++ b) (len a)) with (length a)
    by (symmetry; apply clamp_inside; rewrite length_app; lia).
  rewrite drop_app_length, length_app.
  apply take_ge. lia.
Qed.

Lemma slice_from_short (a b : bytes) (L : Z) :
  len b <= L -> slice_from (a ++ b) (len a + L) = [].
Proof.
  intros HL. unfold slice_from.
  rewrite clamp_beyond by (rewrite len_app; lia).
  apply drop_all.
Qed.

(** C4. A buffer that starts with the sentinel, a complete varint that
    stands for [L] and at least [L] further bytes: [_parse_message]
    decodes exactly the [L] payload bytes, reports [L] as the byte count,
    and the remainder is the buffer without its first
    [1 + len vs + L] bytes. *)
Theorem extract_complete_frame (vs payload rest : bytes) (L : Z) :
  is_varint vs L -> len payload = L ->
  let buffer := frame vs payload ++ rest in
  _parse_message ParseFromString buffer
  = Return (decode_payload ParseFromString payload, rest, L)
  /\ slice buffer (1 + len vs) (1 + len vs + L) = payload
  /\ rest = drop (1 + length vs + Z.to_nat L) buffer
  /\ len buffer = (1 + len vs + L) + len rest.
Proof.
  intros Hv HL buffer. subst buffer. unfold frame.
  rewrite <- app_comm_cons, <- app_assoc.
  split; [|split; [|split]].
  - apply (parse_frame ParseFromString [] vs payload rest L);
      [constructor|assumption|assumption].
  - replace (x00 :: vs ++ payload ++ rest)
      with (([x00] ++ vs) ++ payload ++ rest) by reflexivity.
    replace (1 + len vs) with (len ([x00] ++ vs))
      by (rewrite len_app; reflexivity).
    rewrite <- HL. apply slice_middle.
  - replace (x00 :: vs ++ payload ++ rest)
      with ((x00 :: vs ++ payload) ++ rest)
      by (rewrite <- app_comm_cons, <- app_assoc; reflexivity).
    replace (1 + length vs + Z.to_nat L)%nat
      with (length (x00 :: vs ++ payload)).
    + symmetry. apply drop_app_length.
    + cbn [length]. rewrite length_app. unfold len in HL. lia.
  - rewrite len_cons, !len_app. lia.
Qed.

(** C1. The sentinel, a complete varint that stands for [L], and fewer
    than [L] bytes after it: [_parse_message] hands the truncated payload
    to the decoder and returns an empty remainder, so the bytes of the
    incomplete frame are gone from the buffer. *)
Theorem incomplete_payload_is_consumed (junk vs partial : bytes) (L : Z) :
  no_nul junk -> is_varint vs L -> len partial < L ->
  _parse_message ParseFromString (junk ++ frame vs partial)
  = Return (decode_payload ParseFromString partial, [], len partial).
Proof.
  intros Hj Hv HL. unfold _parse_message, frame.
  rewrite find_nul_skip by assumption.
  pose proof (len_nonneg junk) as Hjn.
  pose proof (varint_wf_nonempty vs (proj1 Hv)) as Hvn.
  pose proof (len_nonneg partial).
  destruct (Z.gtb_spec (len junk) (-1)) as [_|]; [|lia].
  rewrite len_app, len_cons, !len_app.
  destruct (Z.ltb_spec (len junk + 1) (len junk + (1 + (len vs + len partial))))
    as [_|]; [|lia].
  cbn [andb].
  replace (junk ++ x00 :: vs ++ partial)
    with ((junk ++ [x00]) ++ vs ++ partial)
    by (rewrite <- app_assoc; reflexivity).
  replace (len junk + 1) with (len (junk ++ [x00]))
    by (rewrite len_app; reflexivity).
  rewrite (DecodeVarint_wf _ _ _ L Hv). cbn [mbind result_bind].
  rewrite app_assoc, <- len_app.
  rewrite slice_short, slice_from_short by lia.
  reflexivity.
Qed.

(** C2. The sentinel followed by at least one varint byte, where the
    buffer ends before a byte with a clear continuation bit:
    [_DecodeVarint] indexes past the end and the [IndexError] leaves
    [_parse_message]. *)
Theorem truncated_varint_raises (junk vs : bytes) :
  no_nul junk -> vs <> [] -> (length vs <= 9)%nat ->
  Forall (fun x => continues x = true) vs ->
  _parse_message ParseFromString (junk ++ x00 :: vs) = Raise IndexError.
Proof.
  intros Hj Hne Hl Hc. unfold _parse_message.
  rewrite find_nul_skip by assumption.
  pose proof (len_nonneg junk) as Hjn.
  assert (0 < len vs) as Hvn.
  { destruct vs; [contradiction|]. rewrite len_cons.
    pose proof (len_nonneg vs). lia. }
  destruct (Z.gtb_spec (len junk) (-1)) as [_|]; [|lia].
  rewrite len_app, len_cons.
  destruct (Z.ltb_spec (len junk + 1) (len junk + (1 + len vs)))
    as [_|]; [|lia].
  cbn [andb].
  replace (junk ++ x00 :: vs) with ((junk ++ [x00]) ++ vs)
    by (rewrite <- app_assoc; reflexivity).
  replace (len junk + 1) with (len (junk ++ [x00]))
    by (rewrite len_app; reflexivity).
  unfold _DecodeVarint.
  rewrite DecodeVarint_loop_truncated; [reflexivity|assumption|lia|].
  unfold len. lia.
Qed.

End Frames.

(** ** The ingestion loop *)

Section Ingestion.

Context {double : Type}.
Variable ParseFromString : bytes -> parse_outcome double.
Variable callback_set : bool.

Local Abbreviation parse := (_parse_message ParseFromString).
Local Abbreviation drain' := (drain ParseFromString callback_set).
Local Abbreviation read_cycle' := (read_cycle ParseFromString callback_set).
Local Abbreviation run_loop' := (run_loop ParseFromString callback_set).
Local Abbreviation run' := (run ParseFromString callback_set).

(** *** Invariants of the two loops

    A property of the state that every assignment of [run] preserves
    holds after any number of passes. *)
Section Invariant.

Variable I : state double -> Prop.

Hypothesis I_append : forall st chunk, I st -> I (append_chunk st chunk).

Hypothesis I_none : forall st rem n,
  parse (message_buffer st) = Return (None, rem, n) -> I st ->
  I (mkState rem (bytes_received st) (corrupted_messages st) (history st)).

Hypothesis I_reject : forall st m rem n,
  parse (message_buffer st) = Return (Some m, rem, n) ->
  recognised m = false -> I st ->
  I (mkState rem (bytes_received st) (corrupted_messages st + 1)
       (history st ++ [Corrupted m])).

Hypothesis I_accept : forall st m rem n,
  parse (message_buffer st) = Return (Some m, rem, n) ->
  recognised m = true -> I st ->
  I (mkState rem (bytes_received st + n) (corrupted_messages st)
       (history st ++ Accepted n ::
          (if callback_set then [Call m (len rem >? 0)] else []))).

Lemma drain_loop_invariant (fuel : nat) :
  forall st, I st ->
    I (drain_loop ParseFromString callback_set fuel st).1.
Proof.
  induction fuel as [|fuel IH]; intros st Hst; [exact Hst|].
  rewrite drain_loop_S. unfold drain_body.
  destruct (parse (message_buffer st)) as [[[m rem] n]|e] eqn:E;
    [|exact Hst].
  destruct m as [m|]; [|eapply I_none; eassumption].
  destruct (recognised m) eqn:R; cbn [negb].
  - apply IH. eapply I_accept; eassumption.
  - eapply I_reject; eassumption.
Qed.

Lemma run_loop_invariant (reads : list read_result) :
  forall st, I st -> I (run_loop' reads st).1.
Proof.
  induction reads as [|[chunk|] reads IH]; intros st Hst; cbn [run_loop];
    try exact Hst.
  unfold read_cycle, drain.
  pose proof (drain_loop_invariant
                (S (length (message_buffer (append_chunk st chunk))))
                (append_chunk st chunk) (I_append _ _ Hst)) as Hd.
  destruct (drain_loop _ _ _ _) as [st' [| e |]]; cbn [fst] in Hd;
    [apply IH|..]; exact Hd.
Qed.

End Invariant.

(** *** One frame at the head of the buffer *)

Lemma state_eta (st : state double) :
  mkState (message_buffer st) (bytes_received st) (corrupted_messages st)
    (history st) = st.
Proof. destruct st; reflexivity. Qed.

(** No sentinel in the buffer: nothing is extracted, nothing changes. *)
Lemma drain_no_sentinel (st : state double) :
  no_nul (message_buffer st) -> drain' st = (st, Break).
Proof.
  intros Hn. rewrite drain_unfold. unfold drain_body, _parse_message.
  unfold find_nul. rewrite find_from_absent by assumption.
  change (-1 >? -1) with false. cbn [andb].
  rewrite state_eta. reflexivity.
Qed.

Lemma drain_stops (st : state double) (junk vs payload rest : bytes) :
  message_buffer st = junk ++ frame vs payload ++ rest ->
  no_nul junk -> is_varint vs (len payload) ->
  decode_payload ParseFromString payload = None ->
  drain' st
  = (mkState rest (bytes_received st) (corrupted_messages st) (history st),
     Break).
Proof.
  intros Hb Hj Hv Hd. rewrite drain_unfold. unfold drain_body.
  rewrite Hb. unfold frame. rewrite <- app_comm_cons, <- app_assoc.
  rewrite (parse_frame _ junk vs payload rest (len payload)) by auto.
  rewrite Hd. reflexivity.
Qed.

Lemma drain_rejects (st : state double) (junk vs payload rest : bytes)
    (m : gmap string (pyvalue double)) :
  message_buffer st = junk ++ frame vs payload ++ rest ->
  no_nul junk -> is_varint vs (len payload) ->
  decode_payload ParseFromString payload = Some m ->
  recognised m = false ->
  drain' st
  = (mkState rest (bytes_received st) (corrupted_messages st + 1)
       (history st ++ [Corrupted m]), Break).
Proof.
  intros Hb Hj Hv Hd Hr. rewrite drain_unfold. unfold drain_body.
  rewrite Hb. unfold frame. rewrite <- app_comm_cons, <- app_assoc.
  rewrite (parse_frame _ junk vs payload rest (len payload)) by auto.
  rewrite Hd, Hr. reflexivity.
Qed.

Lemma drain_accepts (st : state double) (junk vs payload rest : bytes)
    (m : gmap string (pyvalue double)) :
  message_buffer st = junk ++ frame vs payload ++ rest ->
  no_nul junk -> is_varint vs (len payload) ->
  decode_payload ParseFromString payload = Some m ->
  recognised m = true ->
  drain' st
  = drain' (mkState rest (bytes_received st + len payload)
              (corrupted_messages st)
              (history st ++ Accepted (len payload) ::
                 (if callback_set then [Call m (len rest >? 0)] else []))).
Proof.
  intros Hb Hj Hv Hd Hr. rewrite drain_unfold. unfold drain_body.
  rewrite Hb. unfold frame. rewrite <- app_comm_cons, <- app_assoc.
  rewrite (parse_frame _ junk vs payload rest (len payload)) by auto.
  rewrite Hd, Hr. reflexivity.
Qed.

Lemma calls_app (h1 h2 : list (event double)) :
  calls (h1 ++ h2) = calls h1 ++ calls h2.
Proof. apply omap_app. Qed.

Lemma accepted_lengths_app (h1 h2 : list (event double)) :
  accepted_lengths (h1 ++ h2) = accepted_lengths h1 ++ accepted_lengths h2.
Proof. apply omap_app. Qed.

Lemma accepted_lengths_accept (n : Z) (m : gmap string (pyvalue double))
    (r : bool) :
  accepted_lengths (Accepted n :: (if callback_set then [Call m r] else []))
  = [n].
Proof. destruct callback_set; reflexivity. Qed.

Lemma calls_accept (n : Z) (m : gmap string (pyvalue double)) (r : bool) :
  calls (Accepted n :: (if callback_set then [Call m r] else []))
  = if callback_set then [(m, r)] else [].
Proof. destruct callback_set; reflexivity. Qed.

Lemma sum_Z_app (l1 l2 : list Z) : sum_Z (l1 ++ l2) = sum_Z l1 + sum_Z l2.
Proof.
  unfold sum_Z. induction l1 as [|x l1 IH]; cbn [foldr app]; lia.
Qed.

(** *** Frames that are not dispatched *)

(** C8. A complete frame whose payload has at most one byte: its bytes
    leave the buffer, [parsed_message] stays [None] whatever the protobuf
    parser would say, the inner loop breaks, and neither counter nor the
    history changes (no callback). *)
Theorem noop_frame_is_skipped (st : state double)
    (junk vs payload rest : bytes) :
  message_buffer st = junk ++ frame vs payload ++ rest ->
  no_nul junk -> is_varint vs (len payload) -> len payload <= 1 ->
  parse (message_buffer st) = Return (None, rest, len payload)
  /\ drain' st
     = (mkState rest (bytes_received st) (corrupted_messages st)
          (history st), Break).
Proof.
  intros Hb Hj Hv Hl.
  assert (Hd : decode_payload ParseFromString payload = None).
  { unfold decode_payload.
    destruct (Z.gtb_spec (len payload) 1); [lia|reflexivity]. }
  split.
  - rewrite Hb. unfold frame. rewrite <- app_comm_cons, <- app_assoc.
    rewrite (parse_frame _ junk vs payload rest (len payload)) by auto.
    rewrite Hd. reflexivity.
  - eapply drain_stops; eassumption.
Qed.

(** C3, as the code has it. A complete frame whose payload has more than
    one byte and does not parse: the frame leaves the buffer and the inner
    loop breaks; [corrupted_messages] and [bytes_received] are unchanged
    and the callback is not invoked. *)
Theorem decode_failure_drops_frame (st : state double)
    (junk vs payload rest : bytes) :
  message_buffer st = junk ++ frame vs payload ++ rest ->
  no_nul junk -> is_varint vs (len payload) -> 1 < len payload ->
  (forall m, ParseFromString payload <> Parsed m) ->
  drain' st
  = (mkState rest (bytes_received st) (corrupted_messages st) (history st),
     Break).
Proof.
  intros Hb Hj Hv Hl Hp. eapply drain_stops; try eassumption.
  unfold decode_payload.
  destruct (Z.gtb_spec (len payload) 1); [|reflexivity].
  destruct (ParseFromString payload) as [m| |] eqn:E;
    [exfalso; exact (Hp m eq_refl)|reflexivity|reflexivity].
Qed.

Lemma not_dispatchable_cases (payload : bytes) :
  len payload <= 1
  \/ (1 < len payload /\ forall m, ParseFromString payload <> Parsed m)
  \/ (1 < len payload /\ exists m, ParseFromString payload = Parsed m
        /\ recognised (build_parsed_message m) = false) ->
  dispatchable (decode_payload ParseFromString payload) = false.
Proof.
  unfold decode_payload.
  intros [Hl|[[Hl Hp]|[Hl (m & Hp & Hr)]]];
    destruct (Z.gtb_spec (len payload) 1); try lia; try reflexivity.
  - destruct (ParseFromString payload) as [m| |] eqn:E;
      [exfalso; exact (Hp m eq_refl)|reflexivity|reflexivity].
  - rewrite Hp. exact Hr.
Qed.

(** C10. A complete frame that yields nothing to dispatch (a payload of
    at most one byte, a payload that does not parse, or a parsed message
    that fails the shape test) ends the inner loop of this read cycle:
    the buffer is left at the bytes after that frame, whatever frames
    they hold, and no frame is accepted and no callback made. *)
Theorem undispatched_frame_ends_cycle (st : state double)
    (junk vs payload rest : bytes) :
  message_buffer st = junk ++ frame vs payload ++ rest ->
  no_nul junk -> is_varint vs (len payload) ->
  len payload <= 1
  \/ (1 < len payload /\ forall m, ParseFromString payload <> Parsed m)
  \/ (1 < len payload /\ exists m, ParseFromString payload = Parsed m
        /\ recognised (build_parsed_message m) = false) ->
  exists st',
    drain' st = (st', Break)
    /\ message_buffer st' = rest
    /\ calls (history st') = calls (history st)
    /\ accepted_lengths (history st') = accepted_lengths (history st)
    /\ bytes_received st' = bytes_received st.
Proof.
  intros Hb Hj Hv Hc. apply not_dispatchable_cases in Hc.
  destruct (decode_payload ParseFromString payload) as [m|] eqn:Hd.
  - cbn [dispatchable] in Hc. eexists. split.
    + eapply drain_rejects; eassumption.
    + cbn [message_buffer history bytes_received].
      rewrite calls_app, accepted_lengths_app.
      cbn [calls accepted_lengths omap]. rewrite !app_nil_r. auto.
  - eexists. split.
    + eapply drain_stops; eassumption.
    + cbn [message_buffer history bytes_received]. auto.
Qed.

(** *** What reaches the callback *)

Lemma calls_recognised_invariant (reads : list read_result) :
  forall st : state double,
    Forall (fun c => recognised c.1 = true) (calls (history st)) ->
    Forall (fun c => recognised c.1 = true)
      (calls (history (run_loop' reads st).1)).
Proof.
  apply (run_loop_invariant
    (fun st => Forall (fun c => recognised c.1 = true) (calls (history st)))).
  - intros st chunk H. exact H.
  - intros st rem n _ H. exact H.
  - intros st m rem n _ _ H. cbn [history]. rewrite calls_app.
    cbn [calls omap]. rewrite app_nil_r. exact H.
  - intros st m rem n _ Hr H. cbn [history]. rewrite calls_app.
    apply Forall_app. split; [exact H|]. rewrite calls_accept.
    destruct callback_set; repeat constructor. exact Hr.
Qed.

(** C5. A parsed message that has neither both of [name], [value] nor
    both of [id], [data] is dropped: [corrupted_messages] goes up by one,
    the loop breaks and no callback is made.  And in every run, every
    callback invocation carries a message that passed the shape test;
    nothing else is ever passed to the callback. *)
Theorem callback_gets_recognised_only (st : state double)
    (m : gmap string (pyvalue double)) (rem : bytes) (n : Z)
    (reads : list read_result) :
  parse (message_buffer st) = Return (Some m, rem, n) ->
  recognised m = false ->
  drain' st
  = (mkState rem (bytes_received st) (corrupted_messages st + 1)
       (history st ++ [Corrupted m]), Break)
  /\ calls (history st ++ [Corrupted m]) = calls (history st)
  /\ Forall (fun c =>
       (is_Some (c.1 !! "name"%string) /\ is_Some (c.1 !! "value"%string))
       \/ (is_Some (c.1 !! "id"%string) /\ is_Some (c.1 !! "data"%string)))
     (calls (history (run' reads).1)).
Proof.
  intros Hp Hr. split; [|split].
  - rewrite drain_unfold. unfold drain_body. rewrite Hp, Hr. reflexivity.
  - rewrite calls_app. cbn [calls omap]. apply app_nil_r.
  - eapply Forall_impl;
      [apply calls_recognised_invariant; constructor|].
    intros [c r]. cbn [fst]. unfold recognised, has_key.
    rewrite orb_true_iff, !andb_true_iff, !bool_decide_eq_true. tauto.
Qed.

(** *** Dispatch *)

Lemma len_frame_pos (vs payload : bytes) :
  (len (frame vs payload) >? 0) = true.
Proof.
  unfold frame. rewrite len_cons.
  pose proof (len_nonneg (vs ++ payload)).
  destruct (Z.gtb_spec (1 + len (vs ++ payload)) 0); [reflexivity|lia].
Qed.

(** C7. One read brings two complete frames whose payloads parse and
    pass the shape test, into a buffer that holds no sentinel: with a
    callback set, the read cycle makes exactly two callback invocations,
    first frame first, with [data_remaining] true and then false. *)
Theorem two_frames_in_one_read (st : state double)
    (vs1 p1 vs2 p2 : bytes) (m1 m2 : gmap string (pyvalue double)) :
  callback_set = true ->
  no_nul (message_buffer st) ->
  is_varint vs1 (len p1) -> is_varint vs2 (len p2) ->
  decode_payload ParseFromString p1 = Some m1 -> recognised m1 = true ->
  decode_payload ParseFromString p2 = Some m2 -> recognised m2 = true ->
  let st' := (read_cycle' st (frame vs1 p1 ++ frame vs2 p2)).1 in
  read_cycle' st (frame vs1 p1 ++ frame vs2 p2)
  = (mkState [] (bytes_received st + len p1 + len p2)
       (corrupted_messages st)
       (history st ++ [Accepted (len p1); Call m1 true;
                       Accepted (len p2); Call m2 false]), Break)
  /\ calls (history st') = calls (history st) ++ [(m1, true); (m2, false)].
Proof.
  intros Hcb Hj Hv1 Hv2 Hd1 Hr1 Hd2 Hr2 st'.
  assert (Hrun : read_cycle' st (frame vs1 p1 ++ frame vs2 p2)
    = (mkState [] (bytes_received st + len p1 + len p2)
         (corrupted_messages st)
         (history st ++ [Accepted (len p1); Call m1 true;
                         Accepted (len p2); Call m2 false]), Break)).
  { unfold read_cycle.
    rewrite (drain_accepts _ (message_buffer st) vs1 p1 (frame vs2 p2) m1)
      by (try assumption; reflexivity).
    cbn [append_chunk bytes_received corrupted_messages history].
    rewrite len_frame_pos.
    rewrite (drain_accepts _ [] vs2 p2 [] m2)
      by (try assumption; try constructor;
          cbn [message_buffer]; rewrite app_nil_r; reflexivity).
    cbn [bytes_received corrupted_messages history].
    rewrite drain_no_sentinel by constructor.
    rewrite Hcb. change (len [] >? 0) with false.
    rewrite <- app_assoc. reflexivity. }
  split; [exact Hrun|].
  subst st'. rewrite Hrun. cbn [fst history].
  rewrite calls_app. reflexivity.
Qed.

(** *** The counters *)

(** A buffer of whole frames that all parse and pass the shape test is
    emptied by one run of the inner loop; [bytes_received] grows by the
    sum of the payload lengths. *)
Lemma drain_frames (frames : list (bytes * bytes)) :
  forall st : state double,
    Forall (fun f => is_varint f.1 (len f.2)
              /\ dispatchable (decode_payload ParseFromString f.2) = true)
      frames ->
    message_buffer st = wire frames ->
    exists h,
      drain' st
      = (mkState [] (bytes_received st + sum_Z (map (fun f => len f.2) frames))
           (corrupted_messages st) (history st ++ h), Break)
      /\ accepted_lengths h = map (fun f => len f.2) frames
      /\ length (calls h) = if callback_set then length frames else 0%nat.
Proof.
  induction frames as [|[vs payload] frames IH]; intros st Hf Hb.
  - exists []. cbn [wire] in Hb. rewrite drain_no_sentinel
      by (rewrite Hb; constructor).
    cbn [map sum_Z foldr]. rewrite Z.add_0_r, app_nil_r, <- Hb, state_eta.
    destruct callback_set; auto.
  - inversion Hf as [|? ? [Hv Hd] Hf']; subst. cbn [fst snd] in Hv, Hd.
    destruct (decode_payload ParseFromString payload) as [m|] eqn:E;
      [|discriminate]. cbn [dispatchable] in Hd.
    rewrite (drain_accepts st [] vs payload (wire frames) m)
      by (try assumption; constructor).
    edestruct (IH (mkState (wire frames) (bytes_received st + len payload)
                     (corrupted_messages st)
                     (history st ++ Accepted (len payload) ::
                        (if callback_set
                         then [Call m (len (wire frames) >? 0)] else []))))
      as (h & Hrun & Hacc & Hcalls); [assumption|reflexivity|].
    eexists. split; [|split].
    + rewrite Hrun. cbn [bytes_received corrupted_messages history].
      rewrite <- app_assoc. cbn [map fst snd]. unfold sum_Z. cbn [foldr].
      rewrite Z.add_assoc. reflexivity.
    + rewrite accepted_lengths_app, accepted_lengths_accept, Hacc.
      reflexivity.
    + rewrite calls_app, calls_accept, length_app, Hcalls.
      destruct callback_set; reflexivity.
Qed.

Lemma run_loop_monotone (reads : list read_result) (st : state double) :
  bytes_received st <= bytes_received (run_loop' reads st).1
  /\ corrupted_messages st <= corrupted_messages (run_loop' reads st).1.
Proof.
  apply (run_loop_invariant
    (fun st' => bytes_received st <= bytes_received st'
       /\ corrupted_messages st <= corrupted_messages st')).
  - intros st' chunk H. exact H.
  - intros st' rem n _ H. exact H.
  - intros st' m rem n _ _ [Hb Hc]. cbn [bytes_received corrupted_messages].
    lia.
  - intros st' m rem n Hp _ [Hb Hc]. cbn [bytes_received corrupted_messages].
    apply parse_byte_count_nonneg in Hp. lia.
  - lia.
Qed.

Lemma run_loop_app (reads more : list read_result) :
  forall st : state double,
    run_loop' (reads ++ more) st
    = match run_loop' reads st with
      | (st', Reading) => run_loop' more st'
      | ended => ended
      end.
Proof.
  induction reads as [|[chunk|] reads IH]; intros st; cbn [app run_loop].
  - reflexivity.
  - destruct (read_cycle' st chunk) as [st' [| e |]];
      [apply IH|reflexivity|reflexivity].
  - reflexivity.
Qed.

(** C9. Both counters are 0 at construction; no read cycle decreases
    either of them, and neither does any continuation of a run. *)
Theorem counters_never_decrease (reads more : list read_result)
    (st : state double) (chunk : bytes) :
  bytes_received (@initial double) = 0
  /\ corrupted_messages (@initial double) = 0
  /\ bytes_received st <= bytes_received (read_cycle' st chunk).1
  /\ corrupted_messages st <= corrupted_messages (read_cycle' st chunk).1
  /\ bytes_received (run' reads).1
     <= bytes_received (run' (reads ++ more)).1
  /\ corrupted_messages (run' reads).1
     <= corrupted_messages (run' (reads ++ more)).1.
Proof.
  split; [reflexivity|]. split; [reflexivity|].
  assert (Hcycle : bytes_received st <= bytes_received (read_cycle' st chunk).1
    /\ corrupted_messages st <= corrupted_messages (read_cycle' st chunk).1).
  { pose proof (run_loop_monotone [Data chunk] st) as H.
    cbn [run_loop] in H.
    destruct (read_cycle' st chunk) as [st' [| e |]]; exact H. }
  assert (Hrun : bytes_received (run' reads).1
      <= bytes_received (run' (reads ++ more)).1
    /\ corrupted_messages (run' reads).1
      <= corrupted_messages (run' (reads ++ more)).1).
  { unfold run. rewrite run_loop_app.
    destruct (run_loop' reads initial) as [st1 [| e | |]]; cbn [fst];
      try lia.
    apply run_loop_monotone. }
  tauto.
Qed.

End Ingestion.

(** * Further properties of [_parse_message] *)

Lemma index_Return_inv (b : bytes) (pos x : Z) :
  0 <= pos -> index b pos = Return x -> pos < len b.
Proof.
  intros Hp. unfold index.
  destruct (Z.ltb_spec pos 0) as [|_]; [lia|].
  destruct (Z.ltb_spec pos 0) as [|_]; [lia|].
  destruct (b !! Z.to_nat pos) eqn:E; [|discriminate].
  intros _. apply lookup_lt_Some in E. unfold len. lia.
Qed.

Lemma index_shift (junk b : bytes) (i : Z) :
  0 <= i -> index (junk ++ b) (len junk + i) = index b i.
Proof.
  intros Hi. unfold index. pose proof (len_nonneg junk).
  destruct (Z.ltb_spec (len junk + i) 0) as [|_]; [lia|].
  destruct (Z.ltb_spec (len junk + i) 0) as [|_]; [lia|].
  destruct (Z.ltb_spec i 0) as [|_]; [lia|].
  destruct (Z.ltb_spec i 0) as [|_]; [lia|].
  rewrite lookup_app_r by (unfold len; lia).
  replace (Z.to_nat (len junk + i) - length junk)%nat with (Z.to_nat i)
    by (unfold len; lia).
  reflexivity.
Qed.

(** What the varint reader returns: a position after at least one and at
    most [fuel] bytes that were all there, and an unsigned 64-bit value. *)
Lemma DecodeVarint_loop_bounds (fuel : nat) :
  forall (b : bytes) (pos r shift L start : Z),
    0 <= pos ->
    DecodeVarint_loop fuel b pos r shift = Return (L, start) ->
    pos + 1 <= start <= pos + Z.of_nat fuel
    /\ start <= len b /\ 0 <= L < 2 ^ 64.
Proof.
  induction fuel as [|fuel IH]; intros b pos r shift L start Hp;
    cbn [DecodeVarint_loop]; [discriminate|].
  destruct (index b pos) as [x|e] eqn:E; cbn [mbind result_bind];
    [|discriminate].
  apply index_Return_inv in E; [|assumption].
  destruct (Z.land x 128 =? 0).
  - intros [= <- <-]. rewrite land_mask.
    pose proof (Z.mod_pos_bound
      (Z.lor r (Z.shiftl (Z.land x 127) shift)) (2 ^ 64) ltac:(lia)).
    lia.
  - destruct (shift + 7 >=? 64); [discriminate|].
    intros H. apply IH in H; lia.
Qed.

Lemma DecodeVarint_bounds (b : bytes) (pos L start : Z) :
  0 <= pos -> _DecodeVarint b pos = Return (L, start) ->
  pos + 1 <= start <= pos + 10 /\ start <= len b /\ 0 <= L < 2 ^ 64.
Proof.
  intros Hp H. apply DecodeVarint_loop_bounds in H; [|assumption]. lia.
Qed.

(** Bytes in front of the position the reader starts at do not matter. *)
Lemma DecodeVarint_loop_shift (fuel : nat) :
  forall (junk b : bytes) (pos r shift : Z),
    0 <= pos ->
    DecodeVarint_loop fuel (junk ++ b) (len junk + pos) r shift
    = match DecodeVarint_loop fuel b pos r shift with
      | Return (L, start) => Return (L, len junk + start)
      | Raise e => Raise e
      end.
Proof.
  induction fuel as [|fuel IH]; intros junk b pos r shift Hp;
    cbn [DecodeVarint_loop]; [reflexivity|].
  rewrite index_shift by assumption.
  destruct (index b pos) as [x|e]; cbn [mbind result_bind]; [|reflexivity].
  destruct (Z.land x 128 =? 0).
  - f_equal. f_equal. lia.
  - destruct (shift + 7 >=? 64); [reflexivity|].
    replace (len junk + pos + 1) with (len junk + (pos + 1)) by lia.
    apply IH. lia.
Qed.

Lemma clamp_shift (junk b : bytes) (i : Z) :
  0 <= i -> clamp (junk ++ b) (len junk + i) = (length junk + clamp b i)%nat.
Proof.
  intros Hi. unfold clamp. rewrite len_app. pose proof (len_nonneg junk).
  destruct (Z.ltb_spec (len junk + i) 0) as [|_]; [lia|].
  destruct (Z.ltb_spec i 0) as [|_]; [lia|].
  unfold len in *. lia.
Qed.

Lemma slice_shift (junk b : bytes) (lo hi : Z) :
  0 <= lo -> 0 <= hi ->
  slice (junk ++ b) (len junk + lo) (len junk + hi) = slice b lo hi.
Proof.
  intros Hlo Hhi. unfold slice. rewrite !clamp_shift by assumption.
  rewrite drop_app_add.
  replace (length junk + clamp b hi - (length junk + clamp b lo))%nat
    with (clamp b hi - clamp b lo)%nat by lia.
  reflexivity.
Qed.

Lemma slice_from_shift (junk b : bytes) (lo : Z) :
  0 <= lo -> slice_from (junk ++ b) (len junk + lo) = slice_from b lo.
Proof.
  intros Hlo. unfold slice_from. rewrite clamp_shift by assumption.
  apply drop_app_add.
Qed.

(** Ten bytes with the continuation bit set: the reader gives up. *)
Lemma DecodeVarint_loop_overlong (vs : bytes) :
  forall (fuel : nat) (pre post : bytes) (r shift : Z),
    vs <> [] ->
    Forall (fun x => continues x = true) vs ->
    (length vs <= fuel)%nat ->
    shift + 7 * len vs < 71 -> 64 <= shift + 7 * len vs ->
    DecodeVarint_loop fuel (pre ++ vs ++ post) (len pre) r shift
    = Raise DecodeError.
Proof.
  induction vs as [|x vs IH]; intros fuel pre post r shift Hne Hc Hf Hlt Hge;
    [contradiction|].
  destruct fuel as [|fuel]; [reflexivity|]. cbn [DecodeVarint_loop].
  rewrite <- app_comm_cons, index_middle. cbn [mbind result_bind].
  inversion Hc as [|? ? Hx Hc']; subst. unfold continues in Hx.
  destruct (Z.land (byte_val x) 128 =? 0); [discriminate|].
  rewrite len_cons in Hlt, Hge. pose proof (len_nonneg vs) as Hv.
  destruct (Z.geb_spec (shift + 7) 64) as [|Hs]; [reflexivity|].
  destruct vs as [|y vs]; [change (len []) with 0 in *; lia|].
  replace (pre ++ x :: (y :: vs) ++ post)
    with ((pre ++ [x]) ++ (y :: vs) ++ post)
    by (rewrite <- app_assoc; reflexivity).
  replace (len pre + 1) with (len (pre ++ [x]))
    by (rewrite len_app; reflexivity).
  apply IH; [discriminate|assumption|simpl in Hf |- *; lia|lia|lia].
Qed.

Section Edges.

Context {double : Type}.
Variable ParseFromString : bytes -> parse_outcome double.
Variable callback_set : bool.

Local Abbreviation parse := (_parse_message ParseFromString).

(** X1. A buffer without a sentinel byte, the empty buffer among them: no
    message, the buffer is returned as it is, the byte count is 0, and
    the inner loop leaves the whole state as it was. *)
Theorem no_sentinel_nothing_happens (st : state double) :
  no_nul (message_buffer st) ->
  parse (message_buffer st) = Return (None, message_buffer st, 0)
  /\ drain ParseFromString callback_set st = (st, Break).
Proof.
  intros Hn. split; [|apply drain_no_sentinel; assumption].
  unfold _parse_message, find_nul. rewrite find_from_absent by assumption.
  reflexivity.
Qed.

(** X2. The first sentinel is the last byte of the buffer: the guard
    [footer_index + 1 < len(message_buffer)] fails, nothing is consumed
    and no exception is raised. *)
Theorem sentinel_at_end_waits (junk : bytes) :
  no_nul junk ->
  parse (junk ++ [x00]) = Return (None, junk ++ [x00], 0).
Proof.
  intros Hj. unfold _parse_message. rewrite find_nul_skip by assumption.
  rewrite len_app. change (len [x00]) with 1.
  destruct (Z.ltb_spec (len junk + 1) (len junk + 1)) as [|_]; [lia|].
  rewrite andb_false_r. reflexivity.
Qed.

(** X3. After the sentinel, ten bytes in a row with the continuation bit
    set: [_DecodeVarint] raises [DecodeError] ('Too many bytes'), which
    is outside the [try] and leaves [_parse_message], whatever follows. *)
Theorem overlong_varint_raises (junk vs rest : bytes) :
  no_nul junk -> length vs = 10%nat ->
  Forall (fun x => continues x = true) vs ->
  parse (junk ++ x00 :: vs ++ rest) = Raise DecodeError.
Proof.
  intros Hj Hl Hc. unfold _parse_message.
  rewrite find_nul_skip by assumption.
  pose proof (len_nonneg junk). pose proof (len_nonneg rest).
  assert (Hv : len vs = 10) by (unfold len; lia).
  destruct (Z.gtb_spec (len junk) (-1)) as [_|]; [|lia].
  rewrite len_app, len_cons, len_app.
  destruct (Z.ltb_spec (len junk + 1) (len junk + (1 + (len vs + len rest))))
    as [_|]; [|lia].
  cbn [andb].
  replace (junk ++ x00 :: vs ++ rest) with ((junk ++ [x00]) ++ vs ++ rest)
    by (rewrite <- app_assoc; reflexivity).
  replace (len junk + 1) with (len (junk ++ [x00]))
    by (rewrite len_app; reflexivity).
  unfold _DecodeVarint. rewrite DecodeVarint_loop_overlong; try lia.
  - reflexivity.
  - destruct vs; [discriminate|discriminate].
  - assumption.
Qed.

(** What [_parse_message] returns, in terms of where it cut. *)
Lemma parse_cut (b rem : bytes) (m : option (gmap string (pyvalue double)))
    (n : Z) :
  parse b = Return (m, rem, n) ->
  exists k : nat,
    (k <= length b)%nat /\ rem = drop k b /\ 0 <= n <= Z.of_nat k
    /\ (is_Some m -> n + 2 <= Z.of_nat k /\ 1 < n).
Proof.
  unfold _parse_message.
  destruct (Z.gtb_spec (find_nul b) (-1)) as [Hf|Hf]; cbn [andb].
  2:{ intros [= <- <- <-]. exists 0%nat. rewrite drop_0.
      split; [lia|]. split; [reflexivity|]. split; [lia|].
      intros Hs. apply is_Some_None in Hs. contradiction. }
  destruct (_ <? _).
  2:{ intros [= <- <- <-]. exists 0%nat. rewrite drop_0.
      split; [lia|]. split; [reflexivity|]. split; [lia|].
      intros Hs. apply is_Some_None in Hs. contradiction. }
  destruct (_DecodeVarint _ _) as [[L start]|e] eqn:E;
    cbn [mbind result_bind]; [|discriminate].
  apply DecodeVarint_bounds in E; [|lia].
  intros [= Hd <- <-].
  exists (clamp b (start + L)).
  pose proof (clamp_le b (start + L)) as Hc.
  pose proof (length_slice_le b start (start + L)) as Hs.
  pose proof (len_nonneg (slice b start (start + L))) as Hn.
  split; [assumption|]. split; [reflexivity|].
  split; [unfold len in *; lia|].
  intros [d Hm]. rewrite Hm in Hd.
  apply (decode_payload_Some ParseFromString) in Hd.
  split; [|assumption].
  revert Hd. unfold slice, len. rewrite length_take, length_drop.
  assert (clamp b start = Z.to_nat start) as ->.
  { unfold clamp. destruct (Z.ltb_spec start 0); [lia|]. lia. }
  lia.
Qed.

(** X4. Whatever [_parse_message] returns, the remainder is the buffer
    without some prefix: bytes are neither reordered nor invented.  The
    byte count is at most the length of that prefix, and when a message
    is returned the prefix is at least two bytes longer than the payload
    (the sentinel and the length prefix). *)
Theorem remainder_is_suffix (b rem : bytes)
    (m : option (gmap string (pyvalue double))) (n : Z) :
  parse b = Return (m, rem, n) ->
  exists consumed : bytes,
    b = consumed ++ rem /\ 0 <= n <= len consumed
    /\ (is_Some m -> n + 2 <= len consumed).
Proof.
  intros H. apply parse_cut in H as (k & Hk & -> & Hn & Hm).
  exists (take k b). rewrite take_drop. unfold len.
  rewrite length_take. replace (k `min` length b)%nat with k by lia.
  split; [reflexivity|]. split; [assumption|].
  intros Hs. apply Hm in Hs. lia.
Qed.

(** X5. Bytes before the first sentinel are skipped: with at least one
    byte after the sentinel, the result is the same as without them. *)
Theorem leading_bytes_are_skipped (junk tail : bytes) :
  no_nul junk -> tail <> [] ->
  parse (junk ++ x00 :: tail) = parse (x00 :: tail).
Proof.
  intros Hj Ht. unfold _parse_message.
  rewrite find_nul_skip by assumption.
  change (find_nul (x00 :: tail)) with 0.
  pose proof (len_nonneg junk).
  assert (0 < len tail).
  { destruct tail; [contradiction|]. rewrite len_cons.
    pose proof (len_nonneg tail). lia. }
  rewrite len_app, !len_cons.
  destruct (Z.gtb_spec (len junk) (-1)) as [_|]; [|lia].
  destruct (Z.ltb_spec (len junk + 1) (len junk + (1 + len tail)))
    as [_|]; [|lia].
  change (0 + 1) with 1.
  destruct (Z.ltb_spec 1 (1 + len tail)) as [_|]; [|lia].
  change (0 >? -1) with true. cbn [andb].
  unfold _DecodeVarint.
  rewrite (DecodeVarint_loop_shift 10 junk (x00 :: tail) 1 0 0) by lia.
  destruct (DecodeVarint_loop 10 (x00 :: tail) 1 0 0)
    as [[L start]|e] eqn:E; cbn [mbind result_bind]; [|reflexivity].
  apply DecodeVarint_loop_bounds in E; [|lia].
  replace (len junk + start + L) with (len junk + (start + L)) by lia.
  rewrite slice_shift, slice_from_shift by lia.
  reflexivity.
Qed.

End Edges.

(** * Further properties of [run] *)

Lemma total_read_nonneg (reads : list read_result) : 0 <= total_read reads.
Proof.
  induction reads as [|[chunk|] reads IH].
  - reflexivity.
  - change (total_read (Data chunk :: reads))
      with (len chunk + total_read reads).
    pose proof (len_nonneg chunk). lia.
  - exact IH.
Qed.

Section Runs.

Context {double : Type}.
Variable ParseFromString : bytes -> parse_outcome double.
Variable callback_set : bool.

Local Abbreviation parse := (_parse_message ParseFromString).
Local Abbreviation drain' := (drain ParseFromString callback_set).
Local Abbreviation read_cycle' := (read_cycle ParseFromString callback_set).
Local Abbreviation run_loop' := (run_loop ParseFromString callback_set).
Local Abbreviation run' := (run ParseFromString callback_set).

(** Payload bytes counted, two bytes of framing per accepted frame, and
    the bytes still in the buffer. *)
Let weight (st : state double) : Z :=
  bytes_received st
  + 2 * Z.of_nat (length (accepted_lengths (history st)))
  + len (message_buffer st).

Lemma drain_loop_weight (fuel : nat) (st : state double) :
  weight (drain_loop ParseFromString callback_set fuel st).1 <= weight st.
Proof.
  apply (drain_loop_invariant ParseFromString callback_set
           (fun st' => weight st' <= weight st)); [| | |lia].
  - intros st' rem n Hp H. apply parse_cut in Hp as (k & Hk & -> & Hn & _).
    revert H. unfold weight, len. cbn [bytes_received history message_buffer].
    rewrite length_drop. lia.
  - intros st' m rem n Hp _ H. apply parse_cut in Hp as (k & Hk & -> & Hn & _).
    revert H. unfold weight, len. cbn [bytes_received history message_buffer].
    rewrite accepted_lengths_app, length_app, length_drop.
    cbn [accepted_lengths omap list_omap length]. lia.
  - intros st' m rem n Hp _ H.
    apply parse_cut in Hp as (k & Hk & -> & Hn & Hm).
    destruct Hm as [Hm _]; [eauto|].
    revert H. unfold weight, len. cbn [bytes_received history message_buffer].
    rewrite accepted_lengths_app, accepted_lengths_accept, length_app,
      length_drop.
    cbn [length]. lia.
Qed.

Lemma run_loop_weight (reads : list read_result) :
  forall st : state double,
    weight (run_loop' reads st).1 <= weight st + total_read reads.
Proof.
  induction reads as [|[chunk|] reads IH]; intros st; cbn [run_loop fst].
  - change (total_read []) with 0. lia.
  - pose proof (drain_loop_weight
                  (S (length (message_buffer (append_chunk st chunk))))
                  (append_chunk st chunk)) as Hd.
    assert (Ha : weight (append_chunk st chunk) = weight st + len chunk).
    { unfold weight. cbn [append_chunk bytes_received history message_buffer].
      rewrite len_app. lia. }
    assert (Ht : total_read (Data chunk :: reads)
                 = len chunk + total_read reads) by reflexivity.
    pose proof (total_read_nonneg reads).
    unfold read_cycle, drain. clearbody weight.
    destruct (drain_loop _ _ _ _) as [st' [| e |]]; cbn [fst] in *;
      [specialize (IH st')|..]; lia.
  - pose proof (total_read_nonneg (DataSourceError :: reads)). lia.
Qed.

(** X7. After any reads, the payload bytes counted in [bytes_received],
    plus two bytes for every accepted frame, plus the bytes still in the
    buffer, are at most the bytes read: [bytes_received] never exceeds
    what the source delivered. *)
Theorem bytes_received_bounded_by_input (reads : list read_result) :
  let st := (run' reads).1 in
  bytes_received st
  + 2 * Z.of_nat (length (accepted_lengths (history st)))
  + len (message_buffer st)
  <= total_read reads.
Proof.
  cbv zeta. pose proof (run_loop_weight reads initial) as H.
  change (weight initial) with 0 in H. unfold weight in H.
  unfold run. lia.
Qed.





(** X9. A [DataSourceError] from [_read] ends [run] with the state as
    the reads before it left it, and reads after it are never made; if
    [run] had already stopped or died, the failure changes nothing. *)
Theorem reader_failure_stops_run (reads more : list read_result)
    (st : state double) :
  run_loop' (reads ++ DataSourceError :: more) st
  = match run_loop' reads st with
    | (st', Reading) => (st', Stopped)
    | ended => ended
    end.
Proof.
  rewrite run_loop_app.
  destruct (run_loop' reads st) as [st' [| e | |]]; reflexivity.
Qed.

(** X10. The inner [while True] always exits, by [break] or by an
    exception: a pass that goes on has removed at least two bytes, so
    no more passes than the buffer has bytes are made, and no amount of
    further fuel changes the result. *)
Theorem inner_loop_always_exits (st : state double) (fuel : nat) :
  (drain' st).2 <> Unfinished
  /\ drain_loop ParseFromString callback_set
       (S (length (message_buffer st)) + fuel) st = drain' st.
Proof.
  split; [apply drain_finishes|].
  unfold drain. apply drain_loop_fuel; lia.
Qed.

Lemma drain_loop_suffix (fuel : nat) (st : state double) :
  exists consumed,
    message_buffer st
    = consumed
      ++ message_buffer (drain_loop ParseFromString callback_set fuel st).1.
Proof.
  apply (drain_loop_invariant ParseFromString callback_set
    (fun st' => exists consumed,
       message_buffer st = consumed ++ message_buffer st')).
  - intros st' rem n Hp [c Hc]. apply parse_cut in Hp as (k & _ & -> & _).
    exists (c ++ take k (message_buffer st')). cbn [message_buffer].
    rewrite <- app_assoc, take_drop. exact Hc.
  - intros st' m rem n Hp _ [c Hc]. apply parse_cut in Hp as (k & _ & -> & _).
    exists (c ++ take k (message_buffer st')). cbn [message_buffer].
    rewrite <- app_assoc, take_drop. exact Hc.
  - intros st' m rem n Hp _ [c Hc]. apply parse_cut in Hp as (k & _ & -> & _).
    exists (c ++ take k (message_buffer st')). cbn [message_buffer].
    rewrite <- app_assoc, take_drop. exact Hc.
  - exists []. reflexivity.
Qed.

(** X11. As long as [run] is reading, its buffer is a suffix of the
    bytes read so far: bytes leave the buffer from the front only, in
    the order they arrived. *)
Theorem buffer_is_suffix_of_stream (reads : list read_result)
    (st st' : state double) :
  run_loop' reads st = (st', Reading) ->
  exists consumed,
    message_buffer st ++ stream reads = consumed ++ message_buffer st'.
Proof.
  revert st. induction reads as [|[chunk|] reads IH]; intros st;
    cbn [run_loop].
  - intros [= <-]. exists []. apply app_nil_r.
  - unfold read_cycle, drain.
    destruct (drain_loop_suffix
                (S (length (message_buffer (append_chunk st chunk))))
                (append_chunk st chunk)) as [c1 Hc1].
    destruct (drain_loop _ _ _ _) as [st1 [| e |]]; [|discriminate..].
    intros H. apply IH in H as [c2 Hc2]. cbn [fst append_chunk message_buffer] in Hc1.
    exists (c1 ++ c2).
    change (stream (Data chunk :: reads)) with (chunk ++ stream reads).
    rewrite app_assoc, Hc1, <- !app_assoc, Hc2. reflexivity.
  - discriminate.
Qed.

Lemma len_wire_pos (f : bytes * bytes) (frames : list (bytes * bytes)) :
  (len (wire (f :: frames)) >? 0) = true.
Proof.
  destruct f as [vs payload]. cbn [wire]. unfold frame.
  rewrite <- app_comm_cons, len_cons.
  pose proof (len_nonneg ((vs ++ payload) ++ wire frames)).
  destruct (Z.gtb_spec (1 + len ((vs ++ payload) ++ wire frames)) 0);
    [reflexivity|lia].
Qed.

Lemma drain_burst (frames : list (bytes * bytes))
    (ms : list (gmap string (pyvalue double))) :
  Forall2 (fun f m => is_varint f.1 (len f.2)
             /\ decode_payload ParseFromString f.2 = Some m
             /\ recognised m = true) frames ms ->
  forall (st : state double) (junk : bytes),
    callback_set = true -> frames <> [] -> no_nul junk ->
    message_buffer st = junk ++ wire frames ->
    exists h,
      drain' st
      = (mkState [] (bytes_received st + sum_Z (map (fun f => len f.2) frames))
           (corrupted_messages st) (history st ++ h), Break)
      /\ calls h = burst_calls ms
      /\ accepted_lengths h = map (fun f => len f.2) frames.
Proof.
  intros HF. induction HF as [|[vs payload] m frames ms (Hv & Hd & Hr) HF IH];
    intros st junk Hcb Hne Hj Hb; [contradiction|].
  cbn [fst snd] in Hv, Hd.
  rewrite (drain_accepts _ _ st junk vs payload (wire frames) m)
    by assumption.
  replace (if callback_set
           then [Call m (len (wire frames) >? 0)] else [])
    with [Call m (len (wire frames) >? 0)] by (rewrite Hcb; reflexivity).
  destruct frames as [|f frames].
  - inversion HF; subst. cbn [wire].
    rewrite drain_no_sentinel by constructor.
    change (len [] >? 0) with false.
    eexists. split; [|split].
    + cbn [map sum_Z foldr fst snd]. rewrite Z.add_0_r. reflexivity.
    + reflexivity.
    + reflexivity.
  - rewrite len_wire_pos.
    edestruct (IH (mkState (wire (f :: frames))
                     (bytes_received st + len payload)
                     (corrupted_messages st)
                     (history st ++ [Accepted (len payload); Call m true]))
                  []) as (h & Hrun & Hc & Ha);
      [assumption|discriminate|constructor|reflexivity|].
    eexists. split; [|split].
    + rewrite Hrun. cbn [bytes_received corrupted_messages history].
      rewrite <- app_assoc.
      change (sum_Z (map (fun f0 => len f0.2) ((vs, payload) :: f :: frames)))
        with (len payload + sum_Z (map (fun f0 => len f0.2) (f :: frames))).
      rewrite Z.add_assoc. reflexivity.
    + rewrite calls_app, Hc. inversion HF; subst. reflexivity.
    + rewrite accepted_lengths_app, Ha. reflexivity.
Qed.

(** X12. One read that brings any number of whole frames, each with a
    payload that parses and passes the shape test, into a buffer without
    a sentinel: the read cycle dispatches all of them in order, empties
    the buffer, adds the payload lengths to [bytes_received], and passes
    [data_remaining = False] with the last message only. *)
Theorem burst_is_drained (st : state double) (frames : list (bytes * bytes))
    (ms : list (gmap string (pyvalue double))) :
  callback_set = true -> frames <> [] -> no_nul (message_buffer st) ->
  Forall2 (fun f m => is_varint f.1 (len f.2)
             /\ decode_payload ParseFromString f.2 = Some m
             /\ recognised m = true) frames ms ->
  exists h,
    read_cycle' st (wire frames)
    = (mkState [] (bytes_received st + sum_Z (map (fun f => len f.2) frames))
         (corrupted_messages st) (history st ++ h), Break)
    /\ calls h = burst_calls ms
    /\ accepted_lengths h = map (fun f => len f.2) frames.
Proof.
  intros Hcb Hne Hj HF. unfold read_cycle.
  apply (drain_burst frames ms HF (append_chunk st (wire frames))
           (message_buffer st)); try assumption. reflexivity.
Qed.

(** *** The payloads behind [bytes_received] *)

Lemma find_from_found (b : bytes) :
  forall i k : Z,
    find_from b i = k -> k <> -1 -> 0 <= i ->
    exists junk tail,
      b = junk ++ x00 :: tail /\ no_nul junk /\ k = i + len junk.
Proof.
  induction b as [|a b IH]; intros i k Hf Hk Hi; cbn [find_from] in Hf.
  - congruence.
  - destruct (Byte.eqb a x00) eqn:E.
    + apply Byte.byte_dec_bl in E. subst a.
      exists [], b. repeat split; [constructor|]. change (len []) with 0. lia.
    + apply Byte.eqb_false in E.
      destruct (IH (i + 1) k Hf Hk ltac:(lia)) as (junk & tail & -> & Hj & ->).
      exists (a :: junk), tail. split; [reflexivity|].
      split; [constructor; assumption|]. rewrite len_cons. lia.
Qed.

Lemma index_Return_split (b : bytes) (pos x : Z) :
  0 <= pos -> index b pos = Return x ->
  exists pre c post,
    b = pre ++ c :: post /\ len pre = pos /\ x = byte_val c.
Proof.
  intros Hp. unfold index.
  destruct (Z.ltb_spec pos 0) as [|_]; [lia|].
  destruct (Z.ltb_spec pos 0) as [|_]; [lia|].
  destruct (b !! Z.to_nat pos) as [c|] eqn:E; [|discriminate].
  intros [= <-].
  apply list_elem_of_split_length in E as (pre & post & -> & Hl).
  exists pre, c, post. repeat split. unfold len. lia.
Qed.

(** The bytes the varint reader has gone over are a well-formed varint. *)
Lemma DecodeVarint_loop_inv (fuel : nat) :
  forall (b : bytes) (pos r shift L start : Z),
    0 <= pos ->
    DecodeVarint_loop fuel b pos r shift = Return (L, start) ->
    exists pre vs post,
      b = pre ++ vs ++ post /\ len pre = pos /\ varint_wf vs = true
      /\ (length vs <= fuel)%nat /\ start = pos + len vs.
Proof.
  induction fuel as [|fuel IH]; intros b pos r shift L start Hp;
    cbn [DecodeVarint_loop]; [discriminate|].
  destruct (index b pos) as [x|e] eqn:E; cbn [mbind result_bind];
    [|discriminate].
  apply index_Return_split in E as (pre & c & post & -> & Hl & ->);
    [|assumption].
  destruct (Z.land (byte_val c) 128 =? 0) eqn:Hc.
  - intros [= _ <-]. exists pre, [c], post.
    repeat split; try assumption.
    + cbn [varint_wf]. unfold continues. rewrite Hc. reflexivity.
    + cbn [length]. lia.
  - destruct (shift + 7 >=? 64); [discriminate|].
    intros H. apply IH in H as (pre' & vs & post' & Hb & Hl' & Hwf & Hf & ->);
      [|lia].
    assert (Hpre : pre ++ [c] = pre' /\ post = vs ++ post').
    { apply app_inj_1; [unfold len in *; rewrite length_app; cbn [length]; lia|].
      rewrite <- app_assoc. exact Hb. }
    destruct Hpre as [<- ->].
    exists pre, (c :: vs), post'.
    split; [reflexivity|]. split; [assumption|]. split.
    + destruct vs as [|y vs]; [discriminate|].
      rewrite varint_wf_cons, Hwf. unfold continues. rewrite Hc. reflexivity.
    + split; [cbn [length]; lia|]. rewrite len_cons. lia.
Qed.

Lemma slice_take (a c : bytes) (L : Z) :
  0 <= L -> slice (a ++ c) (len a) (len a + L) = take (Z.to_nat L) c.
Proof.
  intros HL. rewrite <- (Z.add_0_r (len a)) at 1.
  rewrite slice_shift by lia. unfold slice, clamp, len.
  destruct (Z.ltb_spec 0 0) as [|_]; [lia|].
  destruct (Z.ltb_spec L 0) as [|_]; [lia|].
  replace (Z.to_nat (0 `min` Z.of_nat (length c))) with 0%nat by lia.
  rewrite drop_0, Nat.sub_0_r.
  destruct (Z.le_gt_cases L (Z.of_nat (length c))).
  - f_equal. lia.
  - rewrite !take_ge by lia. reflexivity.
Qed.

Lemma slice_from_drop (a c : bytes) (L : Z) :
  0 <= L -> slice_from (a ++ c) (len a + L) = drop (Z.to_nat L) c.
Proof.
  intros HL. rewrite slice_from_shift by lia. unfold slice_from, clamp, len.
  destruct (Z.ltb_spec L 0) as [|_]; [lia|].
  destruct (Z.le_gt_cases L (Z.of_nat (length c))).
  - f_equal. lia.
  - rewrite !drop_ge by lia. reflexivity.
Qed.

(** A parsed message comes from a frame that stands in the buffer: the
    byte count is the length of the payload that was decoded, and the
    sentinel and the length prefix are in front of it. *)
Lemma parse_accepts_frame (b rem : bytes)
    (m : gmap string (pyvalue double)) (n : Z) :
  parse b = Return (Some m, rem, n) ->
  exists (junk vs payload : bytes) (L : Z),
    b = junk ++ x00 :: vs ++ payload ++ rem /\ no_nul junk
    /\ is_varint vs L /\ len payload = n /\ n <= L
    /\ decode_payload ParseFromString payload = Some m.
Proof.
  unfold _parse_message.
  destruct (Z.gtb_spec (find_nul b) (-1)) as [Hf|]; cbn [andb];
    [|discriminate].
  destruct (_ <? _); [|discriminate].
  destruct (_DecodeVarint _ _) as [[L start]|e] eqn:E;
    cbn [mbind result_bind]; [|discriminate].
  intros [= Hd Hrem Hn].
  destruct (find_from_found b 0 (find_nul b) eq_refl ltac:(lia) ltac:(lia))
    as (junk & tail & Hb & Hj & Hk).
  pose proof E as Einv. unfold _DecodeVarint in Einv.
  apply DecodeVarint_loop_inv in Einv
    as (pre & vs & post & Hb' & Hl & Hwf & Hlen & ->); [|lia].
  assert (Hpre : junk ++ [x00] = pre /\ tail = vs ++ post).
  { apply app_inj_1;
      [unfold len in *; rewrite length_app; cbn [length]; lia|].
    rewrite <- app_assoc. cbn [app]. rewrite <- Hb. exact Hb'. }
  destruct Hpre as [<- ->].
  assert (Hv : is_varint vs (varint_value vs mod 2 ^ 64))
    by (repeat split; assumption).
  rewrite <- Hl in E, Hd, Hrem, Hn.
  rewrite Hb' in E, Hd, Hrem, Hn.
  rewrite (DecodeVarint_wf _ _ _ _ Hv) in E.
  injection E as <-.
  pose proof (Z.mod_pos_bound (varint_value vs) (2 ^ 64) ltac:(lia)) as HL.
  set (L := varint_value vs mod 2 ^ 64) in *.
  rewrite app_assoc, <- len_app in Hd, Hrem, Hn.
  rewrite slice_take in Hd, Hn by lia.
  rewrite slice_from_drop in Hrem by lia.
  exists junk, vs, (take (Z.to_nat L) post), L.
  split.
  - rewrite <- Hrem, take_drop, Hb', <- app_assoc. reflexivity.
  - split; [assumption|]. split; [assumption|]. split; [assumption|].
    split; [|assumption]. rewrite <- Hn. unfold len. rewrite length_take. lia.
Qed.

Lemma framed_in_prefix (p s c : bytes) : framed_in p s -> framed_in p (c ++ s).
Proof.
  intros (pre & vs & post & L & -> & Hv & Hl).
  exists (c ++ pre), vs, post, L. rewrite <- app_assoc. auto.
Qed.

Lemma framed_in_suffix (p s t : bytes) : framed_in p s -> framed_in p (s ++ t).
Proof.
  intros (pre & vs & post & L & -> & Hv & Hl).
  exists pre, vs, (post ++ t), L.
  split; [|auto].
  rewrite <- app_assoc. cbn [app]. rewrite <- !app_assoc. reflexivity.
Qed.

(** The messages a list of payloads decodes to, as the callback is
    handed them. *)
Let decoded (payloads : list bytes)
    : list (option (gmap string (pyvalue double))) :=
  if callback_set then map (decode_payload ParseFromString) payloads else [].

Lemma drain_loop_payloads (fuel : nat) :
  forall st : state double,
    exists (payloads : list bytes) (h : list (event double)),
      history (drain_loop ParseFromString callback_set fuel st).1
        = history st ++ h
      /\ bytes_received (drain_loop ParseFromString callback_set fuel st).1
         = bytes_received st + sum_Z (map len payloads)
      /\ accepted_lengths h = map len payloads
      /\ map (fun c => Some c.1) (calls h) = decoded payloads
      /\ Forall (fun p => framed_in p (message_buffer st)) payloads.
Proof.
  induction fuel as [|fuel IH]; intros st.
  { exists [], []. cbn [drain_loop fst]. rewrite app_nil_r.
    unfold decoded. destruct callback_set; repeat split; try constructor;
      cbn; lia. }
  rewrite drain_loop_S. unfold drain_body.
  destruct (parse (message_buffer st)) as [[[m rem] n]|e] eqn:E.
  2:{ exists [], []. cbn [fst]. rewrite app_nil_r.
      unfold decoded. destruct callback_set; repeat split; try constructor;
        cbn; lia. }
  destruct m as [m|].
  2:{ exists [], []. cbn [fst history bytes_received]. rewrite app_nil_r.
      unfold decoded. destruct callback_set; repeat split; try constructor;
        cbn; lia. }
  destruct (recognised m); cbn [negb].
  2:{ exists [], [Corrupted m]. cbn [fst history bytes_received].
    unfold decoded. destruct callback_set; repeat split; try constructor;
      cbn; lia. }
  apply parse_accepts_frame in E
    as (junk & vs & payload & L & Hb & Hj & Hv & Hn & HL & Hd).
  destruct (IH (mkState rem (bytes_received st + n) (corrupted_messages st)
                  (history st ++ Accepted n ::
                     (if callback_set
                      then [Call m (len rem >? 0)] else []))))
    as (payloads & h & Hh & Hbr & Ha & Hc & Hf).
  cbn [history bytes_received message_buffer] in Hh, Hbr, Hf.
  exists (payload :: payloads),
    ((Accepted n :: (if callback_set then [Call m (len rem >? 0)] else []))
       ++ h).
  split; [rewrite Hh, <- app_assoc; reflexivity|].
  split.
  { rewrite Hbr. cbn [map]. unfold sum_Z. cbn [foldr]. lia. }
  split.
  { rewrite accepted_lengths_app, accepted_lengths_accept, Ha, <- Hn.
    reflexivity. }
  split.
  { rewrite calls_app, calls_accept, map_app, Hc. unfold decoded.
    destruct callback_set; [|reflexivity]. cbn [map fst app].
    rewrite Hd. reflexivity. }
  constructor.
  - exists junk, vs, rem, L. rewrite Hb. split; [reflexivity|].
    split; [assumption|lia].
  - eapply Forall_impl; [exact Hf|]. intros p Hp. rewrite Hb.
    replace (junk ++ x00 :: vs ++ payload ++ rem)
      with ((junk ++ x00 :: vs ++ payload) ++ rem)
      by (rewrite <- app_assoc; cbn [app]; rewrite <- app_assoc; reflexivity).
    apply framed_in_prefix. exact Hp.
Qed.

Lemma run_loop_payloads (reads : list read_result) :
  forall st : state double,
    exists (payloads : list bytes) (h : list (event double)),
      history (run_loop' reads st).1 = history st ++ h
      /\ bytes_received (run_loop' reads st).1
         = bytes_received st + sum_Z (map len payloads)
      /\ accepted_lengths h = map len payloads
      /\ map (fun c => Some c.1) (calls h) = decoded payloads
      /\ Forall (fun p => framed_in p (message_buffer st ++ stream reads))
           payloads.
Proof.
  induction reads as [|[chunk|] reads IH]; intros st; cbn [run_loop].
  1,3: exists [], []; cbn [fst]; rewrite app_nil_r; unfold decoded;
       destruct callback_set; repeat split; try constructor; cbn; lia.
  unfold read_cycle, drain.
  destruct (drain_loop_payloads
              (S (length (message_buffer (append_chunk st chunk))))
              (append_chunk st chunk))
    as (ps1 & h1 & Hh1 & Hb1 & Ha1 & Hc1 & Hf1).
  destruct (drain_loop_suffix
              (S (length (message_buffer (append_chunk st chunk))))
              (append_chunk st chunk)) as [c Hsuf].
  cbn [append_chunk history bytes_received message_buffer] in Hh1, Hb1, Hf1, Hsuf.
  change (stream (Data chunk :: reads)) with (chunk ++ stream reads).
  assert (Hf1' : Forall (fun p => framed_in p
                   (message_buffer st ++ chunk ++ stream reads)) ps1).
  { eapply Forall_impl; [exact Hf1|]. intros p Hp.
    rewrite app_assoc. apply framed_in_suffix. exact Hp. }
  destruct (drain_loop _ _ _ _) as [st1 [| e |]]; cbn [fst] in *.
  - destruct (IH st1) as (ps2 & h2 & Hh2 & Hb2 & Ha2 & Hc2 & Hf2).
    exists (ps1 ++ ps2), (h1 ++ h2).
    split; [rewrite Hh2, Hh1, <- app_assoc; reflexivity|].
    split; [rewrite Hb2, Hb1, map_app, sum_Z_app; lia|].
    split; [rewrite accepted_lengths_app, Ha1, Ha2, map_app; reflexivity|].
    split.
    { rewrite calls_app, map_app, Hc1, Hc2. unfold decoded.
      destruct callback_set; [rewrite map_app|]; reflexivity. }
    apply Forall_app. split; [exact Hf1'|].
    eapply Forall_impl; [exact Hf2|]. intros p Hp.
    rewrite app_assoc, Hsuf, <- app_assoc.
    apply framed_in_prefix. exact Hp.
  - exists ps1, h1. auto.
  - exists ps1, h1. auto.
Qed.

Lemma total_read_stream (reads : list read_result) :
  total_read reads = len (stream reads).
Proof.
  induction reads as [|[chunk|] reads IH].
  - reflexivity.
  - change (total_read (Data chunk :: reads))
      with (len chunk + total_read reads).
    change (stream (Data chunk :: reads)) with (chunk ++ stream reads).
    rewrite len_app, IH. reflexivity.
  - exact IH.
Qed.

(** C6. After any reads there is a list of payloads, one per accepted
    frame in order, such that [bytes_received] is the sum of their
    lengths.  Each of them stands in the bytes read, right after a
    sentinel and a complete length prefix; with a callback set, the
    messages dispatched are exactly what these payloads decode to; and
    the payloads together with two bytes of framing for each fit in the
    bytes read, so neither sentinels nor length prefixes are counted. *)
Theorem bytes_received_sums_payloads (reads : list read_result) :
  let st := (run' reads).1 in
  exists payloads : list bytes,
    bytes_received st = sum_Z (map len payloads)
    /\ accepted_lengths (history st) = map len payloads
    /\ map (fun c => Some c.1) (calls (history st))
       = (if callback_set
          then map (decode_payload ParseFromString) payloads else [])
    /\ Forall (fun p => framed_in p (stream reads)) payloads
    /\ sum_Z (map len payloads) + 2 * Z.of_nat (length payloads)
       <= len (stream reads).
Proof.
  cbv zeta. unfold run.
  destruct (run_loop_payloads reads initial)
    as (payloads & h & Hh & Hb & Ha & Hc & Hf).
  pose proof (run_loop_weight reads initial) as Hw.
  change (weight initial) with 0 in Hw. unfold weight in Hw.
  cbn [initial history bytes_received message_buffer app] in Hh, Hb, Hf.
  exists payloads. rewrite Hh.
  split; [rewrite Hb; lia|]. split; [exact Ha|]. split; [exact Hc|].
  split; [exact Hf|].
  rewrite Hh, Ha, Hb, length_map, total_read_stream in Hw.
  pose proof (len_nonneg
    (message_buffer (run_loop ParseFromString callback_set reads initial).1)).
  lia.
Qed.

End Runs.

(** * The dictionary built from a decoded message *)

Section Dictionary.

Context {double : Type}.

Lemma has_key_empty (k : string) :
  has_key k (∅ : gmap string (pyvalue double)) = false.
Proof. reflexivity. Qed.

Lemma has_key_insert (k k' : string) (v : pyvalue double)
    (d : gmap string (pyvalue double)) :
  has_key k (<[k' := v]> d) = bool_decide (k = k') || has_key k d.
Proof.
  unfold has_key. destruct (decide (k = k')) as [->|Hne].
  - rewrite lookup_insert_eq.
    rewrite (bool_decide_eq_true_2 (k' = k')) by reflexivity.
    apply bool_decide_eq_true_2. eauto.
  - rewrite lookup_insert_ne by congruence.
    rewrite (bool_decide_eq_false_2 (k = k')) by assumption.
    reflexivity.
Qed.

Lemma has_key_set_if {A : Type} (k k' : string) (f : A -> pyvalue double)
    (o : option A) (d : gmap string (pyvalue double)) :
  has_key k (set_if k' f o d)
  = (bool_decide (k = k') && bool_decide (is_Some o)) || has_key k d.
Proof.
  destruct o as [a|]; cbn [set_if].
  - rewrite has_key_insert, (bool_decide_eq_true_2 (is_Some (Some a)))
      by eauto.
    rewrite andb_true_r. reflexivity.
  - rewrite (bool_decide_eq_false_2 (is_Some None)) by apply is_Some_None.
    rewrite andb_false_r. reflexivity.
Qed.

Lemma first_set_is_Some (n : option double) (b : option bool)
    (s : option string) :
  is_Some (first_set n b s) <-> is_Some n \/ is_Some b \/ is_Some s.
Proof.
  split.
  - intros H. destruct n; [left; eauto|]. destruct b; [right; left; eauto|].
    destruct s; [right; right; eauto|].
    apply is_Some_None in H. contradiction.
  - intros [H|[H|H]]; destruct n, b, s; cbn [first_set]; eauto;
      apply is_Some_None in H; contradiction.
Qed.

(** X13. A raw message is of a recognised shape exactly when both
    [message_id] and [data] are set; [bus] plays no part. *)
Theorem raw_message_recognised (m : VehicleMessage double) :
  type m = RAW ->
  recognised (build_parsed_message m) = true
  <-> is_Some (message_id (raw_message m))
      /\ is_Some (data (raw_message m)).
Proof.
  intros Ht. unfold recognised, build_parsed_message. rewrite Ht.
  rewrite !has_key_set_if, !has_key_empty.
  change (bool_decide ("name" = "data")%string) with false.
  change (bool_decide ("name" = "id")%string) with false.
  change (bool_decide ("name" = "bus")%string) with false.
  change (bool_decide ("value" = "data")%string) with false.
  change (bool_decide ("value" = "id")%string) with false.
  change (bool_decide ("value" = "bus")%string) with false.
  change (bool_decide ("id" = "data")%string) with false.
  change (bool_decide ("id" = "id")%string) with true.
  change (bool_decide ("data" = "data")%string) with true.
  cbn [andb orb]. rewrite !orb_false_r, andb_true_iff.
  rewrite !bool_decide_eq_true. reflexivity.
Qed.

(** X14. A message that is not raw is of a recognised shape exactly when
    one of its three value fields is set: the name is always there, and
    an event alone does not make the message valid. *)
Theorem translated_message_recognised (m : VehicleMessage double) :
  type m <> RAW ->
  has_key "name" (build_parsed_message m) = true
  /\ (recognised (build_parsed_message m) = true
      <-> is_Some (numerical_value (translated_message m))
          \/ is_Some (boolean_value (translated_message m))
          \/ is_Some (string_value (translated_message m))).
Proof.
  intros Ht. unfold recognised, build_parsed_message.
  destruct (type m); [contradiction|].
  rewrite !has_key_set_if, !has_key_insert, !has_key_empty.
  change (bool_decide ("name" = "event")%string) with false.
  change (bool_decide ("name" = "value")%string) with false.
  change (bool_decide ("name" = "name")%string) with true.
  change (bool_decide ("value" = "event")%string) with false.
  change (bool_decide ("value" = "value")%string) with true.
  change (bool_decide ("value" = "name")%string) with false.
  change (bool_decide ("id" = "event")%string) with false.
  change (bool_decide ("id" = "value")%string) with false.
  change (bool_decide ("id" = "name")%string) with false.
  cbn [andb orb]. split; [reflexivity|].
  rewrite !orb_false_r. rewrite bool_decide_eq_true.
  apply first_set_is_Some.
Qed.

(** X15. The keys of the dictionary: a raw message gives no key other
    than [bus], [id], [data], any other message no key other than
    [name], [value], [event]; no dictionary has keys of both shapes. *)
Theorem parsed_message_keys (m : VehicleMessage double) (k : string) :
  has_key k (build_parsed_message m) = true ->
  match type m with
  | RAW => k = "bus"%string \/ k = "id"%string \/ k = "data"%string
  | _ => k = "name"%string \/ k = "value"%string \/ k = "event"%string
  end.
Proof.
  unfold build_parsed_message. destruct (type m).
  - rewrite !has_key_set_if, has_key_empty, orb_false_r.
    rewrite !orb_true_iff, !andb_true_iff, !bool_decide_eq_true. tauto.
  - rewrite !has_key_set_if, has_key_insert, has_key_empty, orb_false_r.
    rewrite !orb_true_iff, !andb_true_iff, !bool_decide_eq_true. tauto.
Qed.

End Dictionary.

(** ** The text of the [data] entry *)

Lemma read_hex_acc_uint (d : Hexadecimal.uint) :
  forall acc : positive,
    read_hex_acc (NilEmpty.string_of_uint d) (Z.pos acc)
    = Some (Z.pos (Pos.of_hex_uint_acc d acc)).
Proof.
  induction d; intros acc;
    cbn [NilEmpty.string_of_uint read_hex_acc Pos.of_hex_uint_acc];
    [reflexivity|..];
    match goal with
    | |- context [hex_digit ?c] =>
        let v := eval vm_compute in (hex_digit c) in
        change (hex_digit c) with v
    end;
    cbv iota; rewrite <- IHd; f_equal; lia.
Qed.

Lemma read_hex_acc_start (d : Hexadecimal.uint) (k : positive) (c : ascii) :
  hex_digit c = Some (Z.pos k) ->
  read_hex_acc (String c (NilEmpty.string_of_uint d)) 0
  = Some (Z.pos (Pos.of_hex_uint_acc d k)).
Proof.
  intros Hc. cbn [read_hex_acc]. rewrite Hc.
  change (16 * 0 + Z.pos k) with (Z.pos k). apply read_hex_acc_uint.
Qed.

(** The digits of a positive number start with a digit other than 0. *)
Lemma to_hex_uint_head (p : positive) (l : Hexadecimal.uint) :
  Pos.to_hex_uint p <> Hexadecimal.D0 l.
Proof.
  intros H.
  assert (Hn : Hexadecimal.unorm (Pos.to_hex_uint p) = Pos.to_hex_uint p).
  { rewrite <- HexadecimalPos.Unsigned.to_of, HexadecimalPos.Unsigned.of_to.
    reflexivity. }
  rewrite H in Hn.
  change (Hexadecimal.unorm (Hexadecimal.D0 l)) with (Hexadecimal.unorm l)
    in Hn.
  destruct l as [| | | | | | | | | | | | | | | | ] eqn:El;
    try (pose proof (HexadecimalFacts.nb_digits_unorm l) as Hd;
         rewrite El, Hn in Hd; cbn in Hd;
         specialize (Hd ltac:(discriminate)); lia).
  exact (HexadecimalPos.Unsigned.to_uint_nonzero p H).
Qed.

Lemma read_hex_pos (p : positive) :
  read_hex (NilZero.string_of_uint (Pos.to_hex_uint p)) = Some (Z.pos p).
Proof.
  pose proof (HexadecimalPos.Unsigned.of_to p) as Hv.
  pose proof (to_hex_uint_head p) as Hh.
  pose proof (HexadecimalPos.Unsigned.to_uint_nonnil p) as Hnil.
  destruct (Pos.to_hex_uint p) as [|l|l|l|l|l|l|l|l|l|l|l|l|l|l|l|l];
    [contradiction|exfalso; exact (Hh l eq_refl)|..];
    cbn [Pos.of_hex_uint] in Hv; injection Hv as Hv;
    cbn [NilZero.string_of_uint NilEmpty.string_of_uint];
    unfold read_hex;
    match goal with
    | |- context [(?c =? "0")%char] =>
        change ((c =? "0")%char) with false
    end;
    cbn [andb]; rewrite <- Hv;
    apply read_hex_acc_start; reflexivity.
Qed.

Section DataEntry.

Context {double : Type}.

(** X16. The [data] entry of the dictionary built from a raw message
    whose data field is [n] is the text [0x], a minus sign when [n] is
    negative, and the lowercase hexadecimal digits of the absolute value
    of [n] without leading zeros. *)
Theorem raw_data_entry_is_hex (m : VehicleMessage double) (n : Z) :
  type m = RAW -> data (raw_message m) = Some n ->
  exists digits : string,
    build_parsed_message m !! "data"%string
    = Some (PyStr ("0x" ++ (if (n <? 0)%Z then "-" else "") ++ digits)%string)
    /\ read_hex digits = Some (Z.abs n).
Proof.
  intros Ht Hd. unfold build_parsed_message. rewrite Ht, Hd.
  cbn [set_if]. rewrite lookup_insert_eq.
  destruct n as [|p|p].
  - exists "0"%string. split; reflexivity.
  - exists (NilZero.string_of_uint (Pos.to_hex_uint p)).
    split; [reflexivity|]. apply read_hex_pos.
  - exists (NilZero.string_of_uint (Pos.to_hex_uint p)).
    split; [reflexivity|]. apply read_hex_pos.
Qed.

End DataEntry.

(** * The dashboard *)

Section DashboardProperties.

Context {M : Measurements}.

Lemma receive_all_snoc (d : Dashboard)
    (calls : list (measurement * bool * datetime))
    (c : measurement * bool * datetime) :
  receive_all d (calls ++ [c]) = receive (receive_all d calls) c.
Proof. unfold receive_all. apply foldl_snoc. Qed.

Lemma named_snoc (n : string) (calls : list (measurement * bool * datetime))
    (c : measurement * bool * datetime) :
  named n (calls ++ [c])
  = named n calls ++ (if decide (m_name c.1.1 = n) then [c.1.1] else []).
Proof.
  unfold named. rewrite map_app, filter_app. reflexivity.
Qed.

Lemma receive_elements_same (d : Dashboard) (m : measurement) (r : bool)
    (now : datetime) :
  elements (receive d (m, r, now)) !! m_name m
  = Some (DataPoint_update
            (default (DataPoint_init (m_class m)) (elements d !! m_name m))
            m).
Proof.
  cbn [receive elements].
  destruct (elements d !! m_name m) as [dp|] eqn:E.
  - rewrite E. rewrite lookup_insert_eq. reflexivity.
  - rewrite lookup_insert_eq, lookup_insert_eq. reflexivity.
Qed.

Lemma receive_elements_other (d : Dashboard) (m : measurement) (r : bool)
    (now : datetime) (n : string) :
  m_name m <> n ->
  elements (receive d (m, r, now)) !! n = elements d !! n.
Proof.
  intros Hn. cbn [receive elements].
  destruct (elements d !! m_name m) as [dp|] eqn:E.
  - rewrite E. apply lookup_insert_ne. assumption.
  - rewrite lookup_insert_eq, !lookup_insert_ne by assumption. reflexivity.
Qed.

(** X17. After any sequence of callback invocations on a new dashboard,
    the element kept under a name is a [DataPoint] made for the class of
    the first measurement of that name and updated with every measurement
    of that name in order; measurements of other names do not touch it,
    and a name never received has no element. *)
Theorem dashboard_elements (now : datetime)
    (calls : list (measurement * bool * datetime)) (n : string) :
  elements (receive_all (Dashboard_init now) calls) !! n
  = match named n calls with
    | [] => None
    | m :: ms =>
        Some (foldl DataPoint_update (DataPoint_init (m_class m)) (m :: ms))
    end.
Proof.
  induction calls as [|[[m r] t] calls IH] using rev_ind.
  - reflexivity.
  - rewrite receive_all_snoc, named_snoc. cbn [fst].
    destruct (decide (m_name m = n)) as [<-|Hne].
    + rewrite receive_elements_same, IH.
      destruct (named (m_name m) calls) as [|m0 ms]; cbn [app default].
      * reflexivity.
      * rewrite app_comm_cons, foldl_snoc. reflexivity.
    + rewrite receive_elements_other, IH, app_nil_r by assumption.
      reflexivity.
Qed.

(** X18. A [DataPoint] after any number of updates: its message count
    has grown by their number, its current data is the last measurement,
    and its measurement type and [event] attribute are as they were. *)
Theorem data_point_after_updates (ms : list measurement) (dp : DataPoint) :
  let dp' := foldl DataPoint_update dp ms in
  dp_messages_received dp' = dp_messages_received dp + Z.of_nat (length ms)
  /\ dp_current_data dp'
     = match last ms with
       | Some m => Some m
       | None => dp_current_data dp
       end
  /\ dp_measurement_type dp' = dp_measurement_type dp
  /\ dp_event dp' = dp_event dp.
Proof.
  cbv zeta. induction ms as [|m ms IH] using rev_ind.
  - cbn. repeat split. lia.
  - rewrite foldl_snoc, last_snoc, length_app.
    destruct IH as (Hc & _ & Ht & He).
    cbn [DataPoint_update dp_messages_received dp_current_data
         dp_measurement_type dp_event length].
    repeat split; try assumption. lia.
Qed.

(** X19. The [events] dictionary of a [DataPoint] after any number of
    updates: under a value it holds the event of the last evented
    measurement in a valid state with that value; other measurements
    leave it alone. *)
Theorem data_point_events (ms : list measurement) (dp : DataPoint)
    (v : state_value) :
  dp_events (foldl DataPoint_update dp ms) !! v
  = match last (filter (fun m => is_evented m && m_valid_state m = true
                                 /\ m_value m = v) ms) with
    | Some m => Some (m_event m)
    | None => dp_events dp !! v
    end.
Proof.
  induction ms as [|m ms IH] using rev_ind.
  - reflexivity.
  - rewrite foldl_snoc, filter_app, filter_cons, filter_nil.
    cbn [DataPoint_update dp_events].
    destruct (is_evented m && m_valid_state m) eqn:E.
    + destruct (decide (m_value m = v)) as [<-|Hne].
      * rewrite lookup_insert_eq.
        rewrite decide_True by auto. rewrite last_snoc. reflexivity.
      * rewrite lookup_insert_ne by assumption.
        rewrite decide_False by tauto. rewrite app_nil_r. exact IH.
    + rewrite decide_False by (intros [? ?]; discriminate).
      rewrite app_nil_r. exact IH.
Qed.

Lemma receive_all_counts (calls : list (measurement * bool * datetime)) :
  forall d : Dashboard,
    messages_received (receive_all d calls)
    = messages_received d + Z.of_nat (length calls)
    /\ redraws (receive_all d calls)
       = (redraws d + length (filter (fun c => c.1.2 = false) calls))%nat
    /\ (0 < messages_received d ->
        started_time (receive_all d calls) = started_time d).
Proof.
  induction calls as [|[[m r] t] calls IH]; intros d.
  - cbn. repeat split; lia.
  - change (receive_all d ((m, r, t) :: calls))
      with (receive_all (receive d (m, r, t)) calls).
    destruct (IH (receive d (m, r, t))) as (Hc & Hr & Ht).
    split; [|split].
    + rewrite Hc. cbn [receive messages_received length]. lia.
    + rewrite Hr, filter_cons. cbn [receive redraws fst snd].
      destruct r.
      * rewrite decide_False by discriminate. reflexivity.
      * rewrite decide_True by reflexivity. cbn [length]. lia.
    + intros Hpos. rewrite Ht.
      * cbn [receive started_time].
        destruct (Z.eqb_spec (messages_received d) 0); [lia|reflexivity].
      * cbn [receive messages_received]. lia.
Qed.

(** X20. A new dashboard after any sequence of callback invocations: its
    message count is their number, [_redraw] has been called once for
    every invocation with [data_remaining] false and for no other, and
    [started_time] is the time of the first invocation. *)
Theorem dashboard_counts_and_redraws (now : datetime)
    (calls : list (measurement * bool * datetime)) :
  let d := receive_all (Dashboard_init now) calls in
  messages_received d = Z.of_nat (length calls)
  /\ redraws d = length (filter (fun c => c.1.2 = false) calls)
  /\ started_time d = match calls with
                      | [] => now
                      | c :: _ => c.2
                      end.
Proof.
  cbv zeta.
  destruct (receive_all_counts calls (Dashboard_init now)) as (Hc & Hr & _).
  split; [rewrite Hc; reflexivity|]. split; [rewrite Hr; reflexivity|].
  destruct calls as [|[[m r] t] calls]; [reflexivity|].
  change (receive_all (Dashboard_init now) ((m, r, t) :: calls))
    with (receive_all (receive (Dashboard_init now) (m, r, t)) calls).
  destruct (receive_all_counts calls (receive (Dashboard_init now) (m, r, t)))
    as (_ & _ & Ht).
  rewrite Ht; [reflexivity|]. cbn [receive messages_received Dashboard_init].
  lia.
Qed.

End DashboardProperties.

(** * Concrete runs with the stand-in parser *)

Ltac solve_varint :=
  unfold is_varint; split; [reflexivity | split; [cbn; lia | reflexivity]].
Ltac solve_no_nul := repeat (constructor; [discriminate|]); constructor.

Lemma extract_complete_frame_witness :
  is_varint [x02] 2 /\ len [x02; x2a] = 2
  /\ _parse_message Sample.ParseFromString (frame [x02] [x02; x2a] ++ [xff])
     = Return (decode_payload Sample.ParseFromString [x02; x2a], [xff], 2).
Proof.
  split; [solve_varint|]. split; [reflexivity|].
  apply (extract_complete_frame Sample.ParseFromString [x02] [x02; x2a] [xff] 2);
    [solve_varint|reflexivity].
Defined.

Lemma incomplete_payload_is_consumed_witness :
  no_nul [] /\ is_varint [x05] 5 /\ len [x01] < 5
  /\ _parse_message Sample.ParseFromString ([] ++ frame [x05] [x01])
     = Return (decode_payload Sample.ParseFromString [x01], [], len [x01]).
Proof.
  split; [solve_no_nul|]. split; [solve_varint|]. split; [reflexivity|].
  apply (incomplete_payload_is_consumed Sample.ParseFromString [] [x05] [x01] 5);
    [solve_no_nul|solve_varint|reflexivity].
Defined.

Lemma truncated_varint_raises_witness :
  no_nul [] /\ [x80] <> [] /\ (length [x80] <= 9)%nat
  /\ Forall (fun x => continues x = true) [x80]
  /\ _parse_message Sample.ParseFromString ([] ++ x00 :: [x80])
     = Raise IndexError.
Proof.
  split; [solve_no_nul|]. split; [discriminate|]. split; [cbn; lia|].
  split; [repeat constructor|].
  apply (truncated_varint_raises Sample.ParseFromString [] [x80]);
    [solve_no_nul|discriminate|cbn; lia|repeat constructor].
Defined.

(** The exception is not caught in [run] either: the loop is left with
    the buffer as it was. *)
Example truncated_varint_ends_run :
  run Sample.ParseFromString true [Data [x00; x80]; Data [x01; x07]]
  = (holding [x00; x80], Crashed IndexError).
Proof. reflexivity. Qed.

(** A frame split between two reads is lost: the first read cycle takes
    the incomplete frame off the buffer, and the bytes of the second read
    are left without a sentinel.  Delivered in one read, the same frame is
    dispatched. *)
Example split_frame_is_lost :
  let whole := run Sample.ParseFromString true
                 [Data [x00; x03; x01; x10; xff]] in
  let split := run Sample.ParseFromString true
                 [Data [x00; x03; x01]; Data [x10; xff]] in
  length (calls (history whole.1)) = 1%nat
  /\ bytes_received whole.1 = 3
  /\ split = (holding [x10; xff], Reading).
Proof. vm_compute. repeat split. Qed.

Lemma noop_frame_is_skipped_witness :
  message_buffer (holding [x00; x01; x55; x00; x02; x02; x2a])
    = [] ++ frame [x01] [x55] ++ [x00; x02; x02; x2a]
  /\ no_nul [] /\ is_varint [x01] (len [x55]) /\ len [x55] <= 1
  /\ drain Sample.ParseFromString true
       (holding [x00; x01; x55; x00; x02; x02; x2a])
     = (holding [x00; x02; x02; x2a], Break).
Proof.
  split; [reflexivity|]. split; [solve_no_nul|]. split; [solve_varint|].
  split; [discriminate|].
  apply (noop_frame_is_skipped Sample.ParseFromString true
           (holding [x00; x01; x55; x00; x02; x02; x2a])
           [] [x01] [x55] [x00; x02; x02; x2a]);
    [reflexivity|solve_no_nul|solve_varint|discriminate].
Defined.

(** C3 as stated fails: a payload of two bytes that does not parse
    leaves [corrupted_messages] at 0. *)
Lemma decode_failure_is_not_counted :
  1 < len [xff; xff]
  /\ Sample.ParseFromString [xff; xff] = RaisesDecodeError
  /\ corrupted_messages
       (read_cycle Sample.ParseFromString true initial
          (frame [x02] [xff; xff])).1
     <> corrupted_messages (@initial Z) + 1.
Proof. vm_compute. repeat split; discriminate. Qed.

Lemma decode_failure_drops_frame_witness :
  message_buffer (holding [x00; x02; xff; xff; x07])
    = [] ++ frame [x02] [xff; xff] ++ [x07]
  /\ no_nul [] /\ is_varint [x02] (len [xff; xff]) /\ 1 < len [xff; xff]
  /\ (forall m, Sample.ParseFromString [xff; xff] <> Parsed m)
  /\ drain Sample.ParseFromString true (holding [x00; x02; xff; xff; x07])
     = (holding [x07], Break).
Proof.
  split; [reflexivity|]. split; [solve_no_nul|]. split; [solve_varint|].
  split; [reflexivity|]. split; [intros m; discriminate|].
  apply (decode_failure_drops_frame Sample.ParseFromString true
           (holding [x00; x02; xff; xff; x07]) [] [x02] [xff; xff] [x07]);
    [reflexivity|solve_no_nul|solve_varint|reflexivity|intros m; discriminate].
Defined.

Lemma callback_gets_recognised_only_witness :
  _parse_message Sample.ParseFromString
    (message_buffer (holding [x00; x02; x01; x07; x09]))
    = Return (Some id_only, [x09], 2)
  /\ recognised id_only = false
  /\ drain Sample.ParseFromString true (holding [x00; x02; x01; x07; x09])
     = (mkState [x09] 0 1 [Corrupted id_only], Break).
Proof.
  split; [reflexivity|]. split; [reflexivity|].
  apply (callback_gets_recognised_only Sample.ParseFromString true
           (holding [x00; x02; x01; x07; x09]) id_only [x09] 2 []);
    reflexivity.
Defined.

Example bytes_received_excludes_framing :
  bytes_received
    (run Sample.ParseFromString true
       [Data [x00; x02; x02; x2a; x00; x03; x01; x10; xff]]).1 = 5.
Proof. reflexivity. Qed.

Lemma two_frames_in_one_read_witness :
  no_nul (message_buffer (@initial Z))
  /\ is_varint [x02] (len [x02; x2a])
  /\ is_varint [x03] (len [x01; x10; xff])
  /\ decode_payload Sample.ParseFromString [x02; x2a] = Some speed_42
  /\ recognised speed_42 = true
  /\ decode_payload Sample.ParseFromString [x01; x10; xff] = Some raw_16_255
  /\ recognised raw_16_255 = true
  /\ calls (history
       (read_cycle Sample.ParseFromString true initial
          (frame [x02] [x02; x2a] ++ frame [x03] [x01; x10; xff])).1)
     = calls (history (@initial Z))
       ++ [(speed_42, true); (raw_16_255, false)].
Proof.
  split; [solve_no_nul|]. split; [solve_varint|]. split; [solve_varint|].
  split; [reflexivity|]. split; [reflexivity|]. split; [reflexivity|].
  split; [reflexivity|].
  apply (two_frames_in_one_read Sample.ParseFromString true initial
           [x02] [x02; x2a] [x03] [x01; x10; xff] speed_42 raw_16_255);
    try reflexivity; try solve_varint. solve_no_nul.
Defined.

Lemma undispatched_frame_ends_cycle_witness :
  message_buffer (holding [x00; x00; x00; x02; x02; x2a])
    = [] ++ frame [x00] [] ++ [x00; x02; x02; x2a]
  /\ no_nul [] /\ is_varint [x00] (len []) /\ len [] <= 1
  /\ exists st',
       drain Sample.ParseFromString true
         (holding [x00; x00; x00; x02; x02; x2a]) = (st', Break)
       /\ message_buffer st' = [x00; x02; x02; x2a]
       /\ calls (history st') = [].
Proof.
  split; [reflexivity|]. split; [solve_no_nul|]. split; [solve_varint|].
  split; [discriminate|].
  destruct (undispatched_frame_ends_cycle Sample.ParseFromString true
              (holding [x00; x00; x00; x02; x02; x2a])
              [] [x00] [] [x00; x02; x02; x2a])
    as (st' & Hd & Hb & Hc & _);
    [reflexivity|solve_no_nul|solve_varint|left; discriminate|].
  exists st'. auto.
Defined.

(** The frame left behind is dispatched in the next read cycle, here one
    whose read brings no bytes. *)
Example pending_frame_waits_for_next_read :
  let one := run Sample.ParseFromString true
               [Data [x00; x00; x00; x02; x02; x2a]] in
  let two := run Sample.ParseFromString true
               [Data [x00; x00; x00; x02; x02; x2a]; Data []] in
  one = (holding [x00; x02; x02; x2a], Reading)
  /\ calls (history two.1) = [(speed_42, false)]
  /\ message_buffer two.1 = [].
Proof. vm_compute. repeat split. Qed.

(** * Concrete instances of the further properties *)

Lemma no_sentinel_nothing_happens_witness :
  no_nul (message_buffer (holding [x41; x42]))
  /\ drain Sample.ParseFromString true (holding [x41; x42])
     = (holding [x41; x42], Break).
Proof.
  split; [solve_no_nul|].
  apply (no_sentinel_nothing_happens Sample.ParseFromString true
           (holding [x41; x42])). solve_no_nul.
Defined.

Lemma sentinel_at_end_waits_witness :
  no_nul [x41]
  /\ _parse_message Sample.ParseFromString ([x41] ++ [x00])
     = Return (None, [x41] ++ [x00], 0).
Proof.
  split; [solve_no_nul|].
  apply (sentinel_at_end_waits Sample.ParseFromString [x41]). solve_no_nul.
Defined.

Lemma overlong_varint_raises_witness :
  no_nul []
  /\ length [xff; xff; xff; xff; xff; xff; xff; xff; xff; xff] = 10%nat
  /\ Forall (fun x => continues x = true)
       [xff; xff; xff; xff; xff; xff; xff; xff; xff; xff]
  /\ _parse_message Sample.ParseFromString
       ([] ++ x00 :: [xff; xff; xff; xff; xff; xff; xff; xff; xff; xff]
           ++ [x01])
     = Raise DecodeError.
Proof.
  split; [solve_no_nul|]. split; [reflexivity|].
  split; [repeat constructor|].
  apply (overlong_varint_raises Sample.ParseFromString []
           [xff; xff; xff; xff; xff; xff; xff; xff; xff; xff] [x01]);
    [solve_no_nul|reflexivity|repeat constructor].
Defined.

Lemma remainder_is_suffix_witness :
  _parse_message Sample.ParseFromString [x00; x02; x02; x2a; x09]
    = Return (Some speed_42, [x09], 2)
  /\ exists consumed : bytes,
       [x00; x02; x02; x2a; x09] = consumed ++ [x09]
       /\ 0 <= 2 <= len consumed
       /\ (is_Some (Some speed_42) -> 2 + 2 <= len consumed).
Proof.
  split; [reflexivity|].
  apply (remainder_is_suffix Sample.ParseFromString
           [x00; x02; x02; x2a; x09] [x09] (Some speed_42) 2).
  reflexivity.
Defined.

Lemma leading_bytes_are_skipped_witness :
  no_nul [x41] /\ [x02; x02; x2a] <> []
  /\ _parse_message Sample.ParseFromString ([x41] ++ x00 :: [x02; x02; x2a])
     = _parse_message Sample.ParseFromString (x00 :: [x02; x02; x2a]).
Proof.
  split; [solve_no_nul|]. split; [discriminate|].
  apply (leading_bytes_are_skipped Sample.ParseFromString [x41]
           [x02; x02; x2a]); [solve_no_nul|discriminate].
Defined.

Lemma parse_encoded_frame_witness :
  no_nul [] /\ len [x02; x2a] < 2 ^ 64
  /\ _parse_message Sample.ParseFromString
       ([] ++ x00 :: encode_varint (len [x02; x2a]) ++ [x02; x2a] ++ [x09])
     = Return (decode_payload Sample.ParseFromString [x02; x2a], [x09],
               len [x02; x2a]).
Proof.
  split; [solve_no_nul|]. split; [reflexivity|].
  apply (parse_encoded_frame Sample.ParseFromString [] [x02; x2a] [x09]);
    [solve_no_nul|reflexivity].
Defined.

Lemma buffer_is_suffix_of_stream_witness :
  run_loop Sample.ParseFromString true
    [Data [x00; x02; x02; x2a]; Data [x55]] initial
    = (mkState [x55] 2 0 [Accepted 2; Call speed_42 false], Reading)
  /\ exists consumed,
       message_buffer (@initial Z)
         ++ stream [Data [x00; x02; x02; x2a]; Data [x55]]
       = consumed ++ [x55].
Proof.
  split; [reflexivity|].
  apply (buffer_is_suffix_of_stream Sample.ParseFromString true
           [Data [x00; x02; x02; x2a]; Data [x55]] initial
           (mkState [x55] 2 0 [Accepted 2; Call speed_42 false])).
  reflexivity.
Defined.

Lemma burst_is_drained_witness :
  [([x02], [x02; x2a]); ([x03], [x01; x10; xff])] <> []
  /\ no_nul (message_buffer (@initial Z))
  /\ exists h,
       read_cycle Sample.ParseFromString true initial
         (wire [([x02], [x02; x2a]); ([x03], [x01; x10; xff])])
       = (mkState [] (0 + sum_Z [2; 3]) 0 ([] ++ h), Break)
       /\ calls h = burst_calls [speed_42; raw_16_255]
       /\ accepted_lengths h = [2; 3].
Proof.
  split; [discriminate|]. split; [solve_no_nul|].
  apply (burst_is_drained Sample.ParseFromString true initial
           [([x02], [x02; x2a]); ([x03], [x01; x10; xff])]
           [speed_42; raw_16_255]);
    [reflexivity|discriminate|solve_no_nul|].
  repeat constructor; solve_varint.
Defined.

Lemma raw_message_recognised_witness :
  type (mkVehicleMessage RAW (mkRawMessage None (Some 16) (Some 255))
          Sample.no_translated) = RAW
  /\ (recognised raw_16_255 = true
      <-> is_Some (Some 16) /\ is_Some (Some 255)).
Proof.
  split; [reflexivity|].
  apply (raw_message_recognised
           (mkVehicleMessage RAW (mkRawMessage None (Some 16) (Some 255))
              Sample.no_translated)).
  reflexivity.
Defined.

Lemma translated_message_recognised_witness :
  type (mkVehicleMessage TRANSLATED (mkRawMessage None None None)
          (mkTranslatedMessage "speed"%string (Some 42)
             None None None None None)) <> RAW
  /\ has_key "name" speed_42 = true.
Proof.
  split; [discriminate|].
  refine (proj1 (translated_message_recognised
           (mkVehicleMessage TRANSLATED (mkRawMessage None None None)
              (mkTranslatedMessage "speed"%string (Some 42)
                 None None None None None)) _)).
  discriminate.
Defined.

Lemma parsed_message_keys_witness :
  has_key "id" raw_16_255 = true
  /\ ("id" = "bus" \/ "id" = "id" \/ "id" = "data")%string.
Proof.
  split; [reflexivity|].
  apply (parsed_message_keys
           (mkVehicleMessage RAW (mkRawMessage None (Some 16) (Some 255))
              Sample.no_translated) "id"%string).
  reflexivity.
Defined.

(** C7 as stated fails: what a read of two valid frames dispatches
    depends on what the buffer holds.  After a read cycle that left a
    whole frame behind (it followed a frame without payload), the read
    of two frames gives three callback invocations; after a read that
    brought a sentinel alone, it gives none. *)
Lemma two_frames_not_two_callbacks :
  let two := frame [x02] [x02; x2a] ++ frame [x03] [x01; x10; xff] in
  let pending :=
    (read_cycle Sample.ParseFromString true initial
       [x00; x00; x00; x02; x02; x2a]).1 in
  let lone := (read_cycle Sample.ParseFromString true initial [x00]).1 in
  (message_buffer pending = [x00; x02; x02; x2a]
   /\ calls (history pending) = []
   /\ calls (history (read_cycle Sample.ParseFromString true pending two).1)
      = [(speed_42, true); (speed_42, true); (raw_16_255, false)])
  /\ (message_buffer lone = [x00]
      /\ calls (history lone) = []
      /\ calls (history (read_cycle Sample.ParseFromString true lone two).1)
         = []).
Proof. vm_compute. repeat split. Qed.

Lemma raw_data_entry_is_hex_witness :
  type (mkVehicleMessage RAW (mkRawMessage None (Some 16) (Some 255))
          Sample.no_translated) = RAW
  /\ data (raw_message
             (mkVehicleMessage RAW (mkRawMessage None (Some 16) (Some 255))
                Sample.no_translated)) = Some 255
  /\ exists digits : string,
       raw_16_255 !! "data"%string
       = Some (PyStr ("0x" ++ (if (255 <? 0)%Z then "-" else "")
                           ++ digits)%string)
       /\ read_hex digits = Some (Z.abs 255).
Proof.
  split; [reflexivity|]. split; [reflexivity|].
  apply (raw_data_entry_is_hex
           (mkVehicleMessage RAW (mkRawMessage None (Some 16) (Some 255))
              Sample.no_translated) 255); reflexivity.
Defined.

(** The reader accepts one spelling of a number only. *)
Example read_hex_is_strict :
  read_hex "ff" = Some 255 /\ read_hex "00ff" = None
  /\ read_hex "FF" = None /\ read_hex "" = None /\ read_hex "0" = Some 0.
Proof. repeat split. Qed.

Example raw_data_entries :
  raw_16_255 !! "data"%string = Some (PyStr "0xff")
  /\ build_parsed_message
       (mkVehicleMessage RAW (mkRawMessage None None (Some (-255)))
          Sample.no_translated) !! "data"%string
     = Some (PyStr "0x-ff").
Proof. split; reflexivity. Qed.
